(** * WebSocketStream (ext/websocket/02_websocketstream.js)

    A shallow embedding of the [WebSocketStream] class: its private slots,
    the [close] method, the connect continuation chain of the constructor,
    the early-close drain loop, the [pull] event pump and the two reactions
    installed by the readable stream's [start] hook.

    JavaScript runs these pieces as cooperatively scheduled continuations.
    Every suspension point of the source (an [await], a [then] callback, a
    timer) is one [Input] of the step function below, so that every
    interleaving the scheduler can produce is a trace of the model.  What
    the platform decides is an input as well: whether an operation of the
    transport fulfils or rejects, and whether [controller.enqueue] returns
    or throws.

    Numbers (resource ids, event kinds, close codes, milliseconds) are
    integers in [Z].  The argument checks at the head of the constructor
    and the [write] hook of the writable stream, which sends a frame and
    touches no slot of the instance, are not part of the model. *)

From Stdlib Require Import ZArith NArith List String Bool Lia.
From stdpp Require Import base list.
Import ListNotations.

Local Open Scope Z_scope.

(** ** Values *)

(** A [USVString] is a sequence of Unicode scalar values. *)
Definition USVString : Type := list N.

Inductive Value : Type :=
| VUndefined
| VNumber (n : Z)
| VString (s : USVString)
| VBytes (b : list N)
| VError (message : Value)                    (* new Error(value) *)
| VDOMException (message name : string)       (* new DOMException(message, name) *)
| VCloseEvent (code : Z) (reason : Value)     (* { code: kind, reason: value } *)
| VConnection (extensions protocol : USVString)
    (* { readable, writable, extensions, protocol } *)
| VHost (id : nat).                           (* any other host value *)

(** ** TextEncoder

    [encoder.encode(s)] is the UTF-8 encoding of the scalar values of [s];
    [TypedArrayPrototypeGetByteLength] is the number of bytes produced. *)

Definition utf8_encode_scalar (c : N) : list N :=
  if (c <? 0x80)%N then [c]
  else if (c <? 0x800)%N then
    [N.lor 0xC0 (N.shiftr c 6); N.lor 0x80 (N.land c 0x3F)]
  else if (c <? 0x10000)%N then
    [N.lor 0xE0 (N.shiftr c 12);
     N.lor 0x80 (N.land (N.shiftr c 6) 0x3F);
     N.lor 0x80 (N.land c 0x3F)]
  else
    [N.lor 0xF0 (N.shiftr c 18);
     N.lor 0x80 (N.land (N.shiftr c 12) 0x3F);
     N.lor 0x80 (N.land (N.shiftr c 6) 0x3F);
     N.lor 0x80 (N.land c 0x3F)].

Definition TextEncoder_encode (s : USVString) : list N :=
  flat_map utf8_encode_scalar s.

Definition TypedArrayPrototypeGetByteLength (b : list N) : nat := length b.

(** ** WebSocketCloseInfo

    The dictionary produced by [webidl.converters.WebSocketCloseInfo]:
    [code] is optional, [reason] defaults to the empty string.  [code] is
    the number the [unsigned short] converter of line 60 returned, not the
    argument of the caller; the converter is the platform's and is not
    modelled. *)

Record WebSocketCloseInfo : Type := {
  code : option Z;
  reason : USVString
}.

(** JavaScript truthiness of [closeInfo.code] and [closeInfo.reason]. *)
Definition truthy_code (c : option Z) : bool :=
  match c with
  | Some z => negb (z =? 0)
  | None => false
  end.

Definition truthy_reason (s : USVString) : bool :=
  match s with
  | [] => false
  | _ :: _ => true
  end.

Definition truthy_rid (r : option Z) : bool :=
  match r with
  | Some z => negb (z =? 0)
  | None => false
  end.

Definition is_undefined {A : Type} (c : option A) : bool :=
  match c with
  | None => true
  | Some _ => false
  end.

(** [closeInfo.code === 1000 || (3000 <= closeInfo.code && closeInfo.code < 5000)] *)
Definition code_allowed (c : option Z) : bool :=
  match c with
  | Some z => (z =? 1000) || ((3000 <=? z) && (z <? 5000))
  | None => false
  end.

Definition close_code_error : Value :=
  VDOMException
    "The close code must be either 1000 or in the range of 3000 to 4999."
    "InvalidAccessError".

Definition close_reason_error : Value :=
  VDOMException
    "The close reason may not be longer than 123 bytes."
    "SyntaxError".

Definition closed_while_connecting : Value :=
  VDOMException "Closed while connecting" "NetworkError".

Definition CLOSE_RESPONSE_TIMEOUT : Z := 5000.

(** ** Deferred *)

Inductive Settlement : Type :=
| Resolved (v : Value)
| Rejected (e : Value).

(** Modelled from the spec: the [Deferred] class, imported from
    ext:deno_web/06_streams.js, is not among the sources.  The spec
    describes it as an externally resolvable one-shot future: it starts
    "pending"; the first [resolve] or [reject] settles it and every later
    call is ignored.  [None] is the pending state.  The source reads
    [state === "pending"] on all three of its deferreds and
    [state === "fulfilled"] only on [_closeSent], which it never rejects. *)
Definition Deferred : Type := option Settlement.

Definition is_pending (d : Deferred) : bool :=
  match d with
  | None => true
  | Some _ => false
  end.

Definition is_fulfilled (d : Deferred) : bool :=
  match d with
  | Some (Resolved _) => true
  | _ => false
  end.

Inductive Which : Type := Connection | Closed | CloseSent.

(** ** Effects observed outside the instance: transport operations, stream
    controller calls, timers, and the calls made on the three deferreds. *)

Inductive Effect : Type :=
| OpCheckPermissionAndCancelHandle
| CoreCloseCancelRid                       (* core.close(cancelRid) *)
| CoreTryCloseCancelRid                    (* core.tryClose(cancelRid) *)
| SignalAdd                                (* options.signal[add](abort) *)
| SignalRemove                             (* options.signal[remove](abort) *)
| OpCreate                                 (* op_ws_create *)
| OpClose (rid : option Z) (c : option Z) (r : option USVString)
| OpNextEvent (rid : option Z)             (* op_ws_next_event *)
| OpSendPong (rid : option Z)              (* op_ws_send { kind: "pong" } *)
| CoreTryClose (rid : option Z)            (* core.tryClose(this[_rid]) *)
| ControllerEnqueue (v : Value)            (* controller.enqueue(v) returned *)
| ControllerEnqueueThrew (v : Value)       (* controller.enqueue(v) threw *)
| ControllerError (e : Value)
| ControllerClose
| WritableStreamClose                      (* writableStreamClose(writable) *)
| SetTimeout0
| Settle (d : Which) (o : Settlement) (took_effect : bool).

(** ** The instance and its pending continuations *)

Inductive SignalState : Type :=
| SigAbsent                      (* options.signal === undefined *)
| SigIdle                        (* a signal that has not fired *)
| SigAborted (reason : Value).   (* signal.aborted, with signal.reason *)

(** Where the continuation chain started by the constructor stands. *)
Inductive ConnectPhase : Type :=
| Creating                       (* op_ws_create in flight *)
| EarlyClosing (rid : Z)         (* op_ws_close(create.rid) in flight *)
| Draining (rid : Z)             (* drain loop awaiting op_ws_next_event *)
| DrainDone                      (* drain loop left; its then-callback is queued *)
| Open                           (* streams built, connection resolved *)
| Finished.                      (* no connect continuation is left *)

(** One suspended activation of [pull]. *)
Inductive Frame : Type :=
| AwaitEvent                               (* await op_ws_next_event *)
| AwaitPong (value : Value)                (* await op_ws_send pong *)
| AwaitInner (value : Value)               (* await pull(controller) *)
| AwaitCloseSent (now : Z) (value : Value).
    (* new Date().getTime() - await this[_closeSent].promise *)

Record World : Type := mkWorld {
  (* private slots of the instance *)
  _rid : option Z;
  _connection : Deferred;
  _closed : Deferred;
  _closeSent : Deferred;
  _earlyClose : bool;
  (* the constructor's closure and what is in flight *)
  signal : SignalState;
  abortListener : bool;          (* [abort] is registered on the signal *)
  phase : ConnectPhase;
  closedReactionRan : bool;      (* then-callback on this.closed, line 312 *)
  closeSentReactionRan : bool;   (* then-callback on _closeSent, line 328 *)
  closeOps : nat;                (* op_ws_close calls of close() in flight *)
  timers : nat;                  (* setTimeout(..., 0) callbacks pending *)
  pulls : list (list Frame);     (* chains of pull activations, innermost first *)
  log : list Effect              (* newest first *)
}.

Definition set_rid (x : option Z) (w : World) : World :=
  mkWorld x (_connection w) (_closed w) (_closeSent w) (_earlyClose w)
    (signal w) (abortListener w) (phase w) (closedReactionRan w)
    (closeSentReactionRan w) (closeOps w) (timers w) (pulls w) (log w).

Definition set_deferred (d : Which) (x : Deferred) (w : World) : World :=
  match d with
  | Connection =>
      mkWorld (_rid w) x (_closed w) (_closeSent w) (_earlyClose w)
        (signal w) (abortListener w) (phase w) (closedReactionRan w)
        (closeSentReactionRan w) (closeOps w) (timers w) (pulls w) (log w)
  | Closed =>
      mkWorld (_rid w) (_connection w) x (_closeSent w) (_earlyClose w)
        (signal w) (abortListener w) (phase w) (closedReactionRan w)
        (closeSentReactionRan w) (closeOps w) (timers w) (pulls w) (log w)
  | CloseSent =>
      mkWorld (_rid w) (_connection w) (_closed w) x (_earlyClose w)
        (signal w) (abortListener w) (phase w) (closedReactionRan w)
        (closeSentReactionRan w) (closeOps w) (timers w) (pulls w) (log w)
  end.

Definition set_earlyClose (x : bool) (w : World) : World :=
  mkWorld (_rid w) (_connection w) (_closed w) (_closeSent w) x
    (signal w) (abortListener w) (phase w) (closedReactionRan w)
    (closeSentReactionRan w) (closeOps w) (timers w) (pulls w) (log w).

Definition set_signal (x : SignalState) (w : World) : World :=
  mkWorld (_rid w) (_connection w) (_closed w) (_closeSent w) (_earlyClose w)
    x (abortListener w) (phase w) (closedReactionRan w)
    (closeSentReactionRan w) (closeOps w) (timers w) (pulls w) (log w).

Definition set_abortListener (x : bool) (w : World) : World :=
  mkWorld (_rid w) (_connection w) (_closed w) (_closeSent w) (_earlyClose w)
    (signal w) x (phase w) (closedReactionRan w)
    (closeSentReactionRan w) (closeOps w) (timers w) (pulls w) (log w).

Definition set_phase (x : ConnectPhase) (w : World) : World :=
  mkWorld (_rid w) (_connection w) (_closed w) (_closeSent w) (_earlyClose w)
    (signal w) (abortListener w) x (closedReactionRan w)
    (closeSentReactionRan w) (closeOps w) (timers w) (pulls w) (log w).

Definition set_closedReactionRan (x : bool) (w : World) : World :=
  mkWorld (_rid w) (_connection w) (_closed w) (_closeSent w) (_earlyClose w)
    (signal w) (abortListener w) (phase w) x
    (closeSentReactionRan w) (closeOps w) (timers w) (pulls w) (log w).

Definition set_closeSentReactionRan (x : bool) (w : World) : World :=
  mkWorld (_rid w) (_connection w) (_closed w) (_closeSent w) (_earlyClose w)
    (signal w) (abortListener w) (phase w) (closedReactionRan w)
    x (closeOps w) (timers w) (pulls w) (log w).

Definition set_closeOps (x : nat) (w : World) : World :=
  mkWorld (_rid w) (_connection w) (_closed w) (_closeSent w) (_earlyClose w)
    (signal w) (abortListener w) (phase w) (closedReactionRan w)
    (closeSentReactionRan w) x (timers w) (pulls w) (log w).

Definition set_timers (x : nat) (w : World) : World :=
  mkWorld (_rid w) (_connection w) (_closed w) (_closeSent w) (_earlyClose w)
    (signal w) (abortListener w) (phase w) (closedReactionRan w)
    (closeSentReactionRan w) (closeOps w) x (pulls w) (log w).

Definition set_pulls (x : list (list Frame)) (w : World) : World :=
  mkWorld (_rid w) (_connection w) (_closed w) (_closeSent w) (_earlyClose w)
    (signal w) (abortListener w) (phase w) (closedReactionRan w)
    (closeSentReactionRan w) (closeOps w) (timers w) x (log w).

Definition set_log (x : list Effect) (w : World) : World :=
  mkWorld (_rid w) (_connection w) (_closed w) (_closeSent w) (_earlyClose w)
    (signal w) (abortListener w) (phase w) (closedReactionRan w)
    (closeSentReactionRan w) (closeOps w) (timers w) (pulls w) x.

Definition deferred (d : Which) (w : World) : Deferred :=
  match d with
  | Connection => _connection w
  | Closed => _closed w
  | CloseSent => _closeSent w
  end.

(** ** A state monad over [World], so that the handlers read like the source *)

Definition M (A : Type) : Type := World -> A * World.

Definition ret {A : Type} (a : A) : M A := fun w => (a, w).

Definition bind {A B : Type} (m : M A) (k : A -> M B) : M B :=
  fun w => let (a, w') := m w in k a w'.

Notation "'let*' x ':=' c 'in' k" := (bind c (fun x => k))
  (at level 10, x name, c at level 100, k at level 200).
Notation "c1 >>> c2" := (bind c1 (fun _ => c2))
  (at level 75, right associativity).

Definition get {A : Type} (f : World -> A) : M A := fun w => (f w, w).
Definition modify (f : World -> World) : M unit := fun w => (tt, f w).
Definition exec {A : Type} (m : M A) (w : World) : World := snd (m w).

Definition emit (e : Effect) : M unit :=
  modify (fun w => set_log (e :: log w) w).

(** [Deferred.resolve] and [Deferred.reject]: the call is logged either way;
    only a pending deferred is changed by it. *)
Definition settle (d : Which) (o : Settlement) : M unit :=
  let* cur := get (deferred d) in
  if is_pending cur
  then modify (set_deferred d (Some o)) >>> emit (Settle d o true)
  else emit (Settle d o false).

Definition resolve (d : Which) (v : Value) : M unit := settle d (Resolved v).
Definition reject (d : Which) (e : Value) : M unit := settle d (Rejected e).

(** ** close(closeInfo), lines 381-431 *)

Inductive Completion : Type :=
| Normal
| Throw (e : Value).

Definition reason_byte_length (closeInfo : WebSocketCloseInfo) : nat :=
  TypedArrayPrototypeGetByteLength (TextEncoder_encode (reason closeInfo)).

Definition close (closeInfo : WebSocketCloseInfo) : M Completion :=
  if truthy_code (code closeInfo) && negb (code_allowed (code closeInfo))
  then ret (Throw close_code_error)
  else if truthy_reason (reason closeInfo)
          && (123 <? reason_byte_length closeInfo)%nat
  then ret (Throw close_reason_error)
  else
    let code' :=
      if truthy_reason (reason closeInfo) && is_undefined (code closeInfo)
      then Some 1000 else code closeInfo in
    let* conn := get _connection in
    if is_pending conn then
      modify (set_earlyClose true) >>> ret Normal
    else
      let* cl := get _closed in
      if is_pending cl then
        let* rid := get _rid in
        emit (OpClose rid code' (Some (reason closeInfo))) >>>
        modify (fun w => set_closeOps (S (closeOps w)) w) >>>
        ret Normal
      else ret Normal.

(** The fulfilment and rejection callbacks of that [op_ws_close], and the
    timer callback, lines 420-428. *)
Definition close_op_fulfilled : M unit :=
  emit SetTimeout0 >>> modify (fun w => set_timers (S (timers w)) w).

Definition close_op_rejected (err : Value) : M unit :=
  let* rid := get _rid in
  (if truthy_rid rid then emit (CoreTryClose rid) else ret tt) >>>
  reject Closed err.

Definition close_timer (now : Z) : M unit :=
  resolve CloseSent (VNumber now).

(** The [close], [abort] and [cancel] hooks of the two streams, lines
    227-242 and 335-342.  [sink_close] is their synchronous part, the
    try/catch: close with the reason when it carries a code, with [{}]
    otherwise, and fall back to [close()] when that throws.  The hooks then
    [await this.closed], which touches no slot of the instance; the promise
    they return is [hook_promise] below. *)
Definition default_close_info : WebSocketCloseInfo :=
  {| code := None; reason := [] |}.

Definition sink_close (r : option WebSocketCloseInfo) : M Completion :=
  let info :=
    match r with
    | Some i => match code i with Some _ => i | None => default_close_info end
    | None => default_close_info
    end in
  let* c := close info in
  match c with
  | Normal => ret Normal
  | Throw _ => close default_close_info
  end.

(** ** The constructor from line 140 on (the URL and the protocol list have
    been validated) *)

Definition blank (sig : SignalState) : World :=
  mkWorld None None None None false sig false Creating false false 0 0 [] [].

Definition reject_both (err : Value) : M unit :=
  reject Connection err >>> reject Closed err.

Definition construct_body : M unit :=
  emit OpCheckPermissionAndCancelHandle >>>
  let* sig := get signal in
  match sig with
  | SigAborted err =>
      emit CoreCloseCancelRid >>> reject_both err >>>
      modify (set_phase Finished)
  | SigIdle =>
      emit SignalAdd >>> modify (set_abortListener true) >>> emit OpCreate
  | SigAbsent => emit OpCreate
  end.

Definition construct (sig : SignalState) : World :=
  exec construct_body (blank sig).

(** The signal fires: its listeners run once. *)
Definition signal_abort (r : Value) : M unit :=
  modify (set_signal (SigAborted r)) >>>
  let* l := get abortListener in
  if l then emit CoreCloseCancelRid >>> modify (set_abortListener false)
  else ret tt.

(** Fulfilment callback of [op_ws_create], lines 165-352. *)
Definition create_fulfilled (rid : Z) (protocol extensions : option USVString)
  : M unit :=
  let* sig := get signal in
  match sig with
  | SigAbsent => ret tt
  | _ => emit SignalRemove >>> modify (set_abortListener false)
  end >>>
  let* early := get _earlyClose in
  if early then
    emit (OpClose (Some rid) None None) >>> modify (set_phase (EarlyClosing rid))
  else
    modify (set_rid (Some rid)) >>>
    modify (set_phase Open) >>>
    resolve Connection
      (VConnection (default [] extensions) (default [] protocol)).

(** Rejection callback of [op_ws_create], lines 353-362.  Without a signal
    [options.signal.reason] throws inside the callback and neither deferred
    is touched. *)
Definition create_rejected (interrupted : bool) (err : Value) : M unit :=
  if interrupted then
    let* sig := get signal in
    match sig with
    | SigAbsent => modify (set_phase Finished)
    | SigIdle => reject_both VUndefined >>> modify (set_phase Finished)
    | SigAborted r => reject_both r >>> modify (set_phase Finished)
    end
  else
    emit CoreTryCloseCancelRid >>> reject_both err >>>
    modify (set_phase Finished).

(** The early-close branch, lines 167-203. *)
Definition early_close_fulfilled (rid : Z) : M unit :=
  emit (OpNextEvent (Some rid)) >>> modify (set_phase (Draining rid)).

Definition early_close_rejected : M unit :=
  reject_both closed_while_connecting >>> modify (set_phase Finished).

Definition drain_event (rid : Z) (kind : Z) : M unit :=
  if 6 <? kind then modify (set_phase DrainDone)
  else emit (OpNextEvent (Some rid)).

Definition drain_then : M unit :=
  reject_both closed_while_connecting >>> modify (set_phase Finished).

(** ** The event pump [pull], lines 244-309 *)

Definition set_chain (j : nat) (c : list Frame) : M unit :=
  modify (fun w => set_pulls (<[j := c]> (pulls w)) w).

(** A fresh call [pull(controller)] runs up to its first [await]. *)
Definition call_pull : M unit :=
  let* rid := get _rid in
  emit (OpNextEvent rid) >>>
  modify (fun w => set_pulls (pulls w ++ [[AwaitEvent]]) w).

(** Lines 295-299: after the switch, either suspend on the recorded
    close-sent timestamp (the clock has been read) or return. *)
Definition after_switch (j : nat) (value : Value) (now : Z)
  (callers : list Frame) : M unit :=
  let* sent := get _closeSent in
  let* cl := get _closed in
  if is_fulfilled sent && is_pending cl
  then set_chain j (AwaitCloseSent now value :: callers)
  else set_chain j callers.

(** Lines 250-293: the switch on the event kind.  [enqueue_returns] tells
    whether the call [controller.enqueue(value)] of line 255 returns.  It
    throws once the readable stream no longer takes chunks (it was
    cancelled, closed or errored); the exception ends this activation of
    [pull] before line 295 and, through the [await] of line 271, every
    activation waiting for it. *)
Definition on_event (enqueue_returns : bool) (j : nat) (kind : Z)
  (value : Value) (now : Z) (callers : list Frame) : M unit :=
  let* rid := get _rid in
  match kind with
  | 0 | 1 =>
      if enqueue_returns
      then emit (ControllerEnqueue value) >>> after_switch j value now callers
      else emit (ControllerEnqueueThrew value) >>> set_chain j []
  | 5 =>
      let err := VError value in
      reject Closed err >>>
      emit (ControllerError err) >>>
      emit (CoreTryClose rid) >>>
      after_switch j value now callers
  | 3 =>
      emit (OpSendPong rid) >>> set_chain j (AwaitPong value :: callers)
  | 2 => after_switch j value now callers
  | 6 =>
      resolve Closed VUndefined >>>
      emit (CoreTryClose rid) >>>
      after_switch j value now callers
  | _ =>
      resolve Closed (VCloseEvent kind value) >>>
      emit (CoreTryClose rid) >>>
      after_switch j value now callers
  end.

(** Line 271: the pong was sent, [pull] calls itself and awaits the call. *)
Definition pong_sent (j : nat) (value : Value) (callers : list Frame)
  : M unit :=
  let* rid := get _rid in
  emit (OpNextEvent rid) >>>
  set_chain j (AwaitEvent :: AwaitInner value :: callers).

(** Lines 299-307: the timestamp has arrived. *)
Definition close_sent_resumed (j : nat) (now ts : Z) (value : Value)
  (callers : list Frame) : M unit :=
  let* rid := get _rid in
  if now - ts <=? CLOSE_RESPONSE_TIMEOUT then
    emit (OpNextEvent rid) >>> set_chain j (AwaitEvent :: callers)
  else
    resolve Closed value >>>
    emit (CoreTryClose rid) >>>
    set_chain j callers.

(** ** The reactions installed by [start], lines 311-333 *)

Definition closed_reaction : M unit :=
  emit ControllerClose >>>
  emit WritableStreamClose >>>
  modify (set_closedReactionRan true).

Definition close_sent_reaction : M unit :=
  modify (set_closeSentReactionRan true) >>>
  let* cl := get _closed in
  if is_pending cl then call_pull else ret tt.

(** ** Scheduler inputs and the step function *)

Inductive Input : Type :=
| SignalAbort (r : Value)
| CreateOk (rid : Z) (protocol extensions : option USVString)
| CreateErr (interrupted : bool) (err : Value)
| EarlyCloseOk
| EarlyCloseErr
| DrainEvent (kind : Z)
| DrainFail
| DrainThen
| CallClose (closeInfo : WebSocketCloseInfo)
| CallSinkClose (r : option WebSocketCloseInfo)
| CloseOpOk
| CloseOpErr (err : Value)
| TimerFire (now : Z)
| CallPull
| NextEvent (j : nat) (kind : Z) (value : Value) (now : Z)
    (* an event is delivered to chain j; for kinds 0 and 1, enqueue returns *)
| EnqueueThrows (j : nat) (kind : Z) (value : Value)
    (* an event of kind 0 or 1 is delivered to chain j, and enqueue throws *)
| NextEventFail (j : nat)
| PongOk (j : nat)
| PongFail (j : nat)
| ResumeInner (j : nat) (now : Z)
| ResumeCloseSent (j : nat)
| ClosedReaction
| CloseSentReaction.

Definition is_open (p : ConnectPhase) : bool :=
  match p with
  | Open => true
  | _ => false
  end.

Definition step (i : Input) (w : World) : option World :=
  match i with
  | SignalAbort r =>
      match signal w with
      | SigIdle => Some (exec (signal_abort r) w)
      | _ => None
      end
  | CreateOk rid protocol extensions =>
      match phase w with
      | Creating => Some (exec (create_fulfilled rid protocol extensions) w)
      | _ => None
      end
  | CreateErr interrupted err =>
      match phase w with
      | Creating => Some (exec (create_rejected interrupted err) w)
      | _ => None
      end
  | EarlyCloseOk =>
      match phase w with
      | EarlyClosing rid => Some (exec (early_close_fulfilled rid) w)
      | _ => None
      end
  | EarlyCloseErr =>
      match phase w with
      | EarlyClosing _ => Some (exec early_close_rejected w)
      | _ => None
      end
  | DrainEvent kind =>
      match phase w with
      | Draining rid => Some (exec (drain_event rid kind) w)
      | _ => None
      end
  | DrainFail =>
      match phase w with
      | Draining _ => Some (set_phase Finished w)
      | _ => None
      end
  | DrainThen =>
      match phase w with
      | DrainDone => Some (exec drain_then w)
      | _ => None
      end
  | CallClose closeInfo => Some (exec (close closeInfo) w)
  | CallSinkClose r =>
      if is_open (phase w) then Some (exec (sink_close r) w) else None
  | CloseOpOk =>
      match closeOps w with
      | S n => Some (exec close_op_fulfilled (set_closeOps n w))
      | O => None
      end
  | CloseOpErr err =>
      match closeOps w with
      | S n => Some (exec (close_op_rejected err) (set_closeOps n w))
      | O => None
      end
  | TimerFire now =>
      match timers w with
      | S n => Some (exec (close_timer now) (set_timers n w))
      | O => None
      end
  | CallPull =>
      if is_open (phase w) then Some (exec call_pull w) else None
  | NextEvent j kind value now =>
      match pulls w !! j with
      | Some (AwaitEvent :: callers) =>
          Some (exec (on_event true j kind value now callers) w)
      | _ => None
      end
  | EnqueueThrows j kind value =>
      match pulls w !! j with
      | Some (AwaitEvent :: callers) =>
          if (kind =? 0) || (kind =? 1)
          then Some (exec (on_event false j kind value 0 callers) w)
          else None
      | _ => None
      end
  | NextEventFail j =>
      match pulls w !! j with
      | Some (AwaitEvent :: _) => Some (exec (set_chain j []) w)
      | _ => None
      end
  | PongOk j =>
      match pulls w !! j with
      | Some (AwaitPong value :: callers) =>
          Some (exec (pong_sent j value callers) w)
      | _ => None
      end
  | PongFail j =>
      match pulls w !! j with
      | Some (AwaitPong _ :: _) => Some (exec (set_chain j []) w)
      | _ => None
      end
  | ResumeInner j now =>
      match pulls w !! j with
      | Some (AwaitInner value :: callers) =>
          Some (exec (after_switch j value now callers) w)
      | _ => None
      end
  | ResumeCloseSent j =>
      match pulls w !! j, _closeSent w with
      | Some (AwaitCloseSent now value :: callers), Some (Resolved (VNumber ts)) =>
          Some (exec (close_sent_resumed j now ts value callers) w)
      | _, _ => None
      end
  | ClosedReaction =>
      if is_open (phase w) && is_fulfilled (_closed w)
         && negb (closedReactionRan w)
      then Some (exec closed_reaction w) else None
  | CloseSentReaction =>
      if is_open (phase w) && is_fulfilled (_closeSent w)
         && negb (closeSentReactionRan w)
      then Some (exec close_sent_reaction w) else None
  end.

Fixpoint run (tr : list Input) (w : World) : option World :=
  match tr with
  | [] => Some w
  | i :: tr' =>
      match step i w with
      | Some w' => run tr' w'
      | None => None
      end
  end.

(** Worlds reachable from a freshly constructed instance. *)
Definition reachable (w : World) : Prop :=
  exists sig tr, run tr (construct sig) = Some w.

(** * Observations and invariants *)

(** ** Reading the log *)

Definition same_which (a b : Which) : bool :=
  match a, b with
  | Connection, Connection | Closed, Closed | CloseSent, CloseSent => true
  | _, _ => false
  end.

Fixpoint count_where (p : Effect -> bool) (l : list Effect) : nat :=
  match l with
  | [] => O
  | e :: l' => if p e then S (count_where p l') else count_where p l'
  end.

(** A call of [resolve] or [reject] on deferred [d]. *)
Definition is_settle_call (d : Which) (e : Effect) : bool :=
  match e with
  | Settle d' _ _ => same_which d d'
  | _ => false
  end.

(** A call that found [d] pending, that is, a settlement of [d]. *)
Definition is_settlement (d : Which) (e : Effect) : bool :=
  match e with
  | Settle d' _ true => same_which d d'
  | _ => false
  end.

Definition settle_calls (d : Which) (w : World) : nat :=
  count_where (is_settle_call d) (log w).

Definition settlements (d : Which) (w : World) : nat :=
  count_where (is_settlement d) (log w).

(** ** Preservation of a property by a monadic handler *)

Definition preserves {A : Type} (P : World -> Prop) (m : M A) : Prop :=
  forall w, P w -> P (snd (m w)).

(** A property that only reads the log and the three deferreds is kept by
    every update of the other fields. *)
Definition frame_only (f : World -> World) : Prop :=
  forall w, log (f w) = log w /\ forall d, deferred d (f w) = deferred d w.

(** ** One settlement per deferred *)

Definition one_shot (w : World) : Prop :=
  forall d,
    settlements d w = (if is_pending (deferred d w) then 0 else 1)%nat /\
    (is_pending (deferred d w) = true -> settle_calls d w = 0%nat).

(** ** The connect phase and the two public deferreds *)

Definition connect_inv (w : World) : Prop :=
  match _connection w with
  | None =>
      _closed w = None /\ closeOps w = 0%nat /\ pulls w = []
      /\ is_open (phase w) = false
  | Some (Rejected e) => _closed w = Some (Rejected e) /\ phase w = Finished
  | Some (Resolved _) => phase w = Open
  end.

(** ** [_closeSent] only ever holds a timestamp *)

Definition closeSent_inv (w : World) : Prop :=
  _closeSent w = None \/ exists ts, _closeSent w = Some (Resolved (VNumber ts)).

(** ** A settled deferred keeps its settlement *)

Definition holds (d : Which) (o : Settlement) (w : World) : Prop :=
  deferred d w = Some o.

(** ** The reaction on [closed] installed by [start] *)

Definition is_controller_close (e : Effect) : bool :=
  match e with
  | ControllerClose => true
  | _ => false
  end.

Definition is_writable_close (e : Effect) : bool :=
  match e with
  | WritableStreamClose => true
  | _ => false
  end.

Definition reaction_inv (w : World) : Prop :=
  count_where is_controller_close (log w)
    = (if closedReactionRan w then 1 else 0)%nat /\
  count_where is_writable_close (log w)
    = (if closedReactionRan w then 1 else 0)%nat /\
  (closedReactionRan w = true -> is_fulfilled (_closed w) = true).

(** * Scenarios and vocabulary of the properties *)

(** ** Exactly-once settlement *)

(** An execution in which four settlement paths of [closed] are reached on
    one instance: an inbound Error event (the one that settles it), the
    close-response timeout of a pull that was waiting for the timestamp,
    the failure of a close operation, and the terminal Closed event seen
    by another pull. *)
Definition racing_paths : list Input :=
  [ CreateOk 7 None None; CallPull; CallPull; CallPull;
    CallClose default_close_info; CloseOpOk; TimerFire 1000;
    CallClose default_close_info;
    NextEvent 0 0 (VString [104%N]) 7000;
    NextEvent 1 5 (VString [98%N]) 7000;
    ResumeCloseSent 0;
    CloseOpErr (VHost 0);
    NextEvent 2 6 VUndefined 7001 ].

Definition racing_world : World :=
  Eval vm_compute in
    match run racing_paths (construct SigAbsent) with
    | Some w => w
    | None => blank SigAbsent
    end.

(** An instance whose connection is established and that nobody closed. *)
Definition open_trace : list Input := [CreateOk 7 None None; CallPull].

Definition open_world : World :=
  Eval vm_compute in
    match run open_trace (construct SigAbsent) with
    | Some w => w
    | None => blank SigAbsent
    end.

(** The close request of the data model: a code that is absent, 1000 or in
    [3000, 5000), and a reason of at most 123 bytes. *)
Definition valid_close_info (closeInfo : WebSocketCloseInfo) : Prop :=
  (code closeInfo = None \/ code closeInfo = Some 1000 \/
   exists c, code closeInfo = Some c /\ 3000 <= c < 5000) /\
  (reason_byte_length closeInfo <= 123)%nat.

(** The code sent with the close frame when the reason is given without one. *)
Definition close_frame_code (closeInfo : WebSocketCloseInfo) : option Z :=
  if truthy_reason (reason closeInfo) && is_undefined (code closeInfo)
  then Some 1000 else code closeInfo.

Definition long_reason : USVString := repeat 97%N 124.

(** ** Repeated [close] *)

(** The close frame was sent and its timestamp recorded; the peer has not
    answered. *)
Definition close_sent_trace : list Input :=
  [CreateOk 7 None None; CallPull; CallClose default_close_info;
   CloseOpOk; TimerFire 1000].

Definition close_sent_world : World :=
  Eval vm_compute in
    match run close_sent_trace (construct SigAbsent) with
    | Some w => w
    | None => blank SigAbsent
    end.

(** The consumer cancelled the readable stream while a pull was waiting
    for an event: the [cancel] hook sent the close frame, and its timestamp
    is recorded.  From the cancellation on [controller.enqueue] throws. *)
Definition cancelled_trace : list Input :=
  [CreateOk 7 None None; CallPull; CallSinkClose None; CloseOpOk;
   TimerFire 1000].

Definition cancelled_world : World :=
  Eval vm_compute in
    match run cancelled_trace (construct SigAbsent) with
    | Some w => w
    | None => blank SigAbsent
    end.

(** ** The event pump: Pong *)

Definition is_next_event (e : Effect) : bool :=
  match e with
  | OpNextEvent _ => true
  | _ => false
  end.

(** ** The event pump: Ping *)

Definition is_pong_send (e : Effect) : bool :=
  match e with
  | OpSendPong _ => true
  | _ => false
  end.

Definition pongs_sent (w : World) : nat := count_where is_pong_send (log w).

(** The values for which [controller.enqueue] returned, newest first. *)
Fixpoint enqueued (l : list Effect) : list Value :=
  match l with
  | [] => []
  | ControllerEnqueue v :: l' => v :: enqueued l'
  | _ :: l' => enqueued l'
  end.

(** The items of the inbound stream, in the order they were enqueued: a
    call of [controller.enqueue] that returns adds its chunk to the stream,
    a call that throws adds nothing. *)
Definition inbound_items (w : World) : list Value := rev (enqueued (log w)).

(** A Ping delivered by the transport, to a pull or to the drain loop. *)
Definition is_ping_received (i : Input) : bool :=
  match i with
  | NextEvent _ 3 _ _ => true
  | DrainEvent 3 => true
  | _ => false
  end.

(** A Ping delivered to a pull. *)
Definition is_ping_pumped (i : Input) : bool :=
  match i with
  | NextEvent _ 3 _ _ => true
  | _ => false
  end.

(** The payload of a Text or Binary event delivered to a pull whose
    [controller.enqueue] returned. *)
Definition message_of (i : Input) : list Value :=
  match i with
  | NextEvent _ kind value _ =>
      if (kind =? 0) || (kind =? 1) then [value] else []
  | _ => []
  end.

Fixpoint count_inputs (p : Input -> bool) (tr : list Input) : nat :=
  match tr with
  | [] => O
  | i :: tr' => if p i then S (count_inputs p tr') else count_inputs p tr'
  end.

Definition messages_of (tr : list Input) : list Value := flat_map message_of tr.

(** The pongs sent and the items enqueued so far. *)
Definition pump_output (n : nat) (l : list Value) (w : World) : Prop :=
  pongs_sent w = n /\ enqueued (log w) = l.

(** A close requested while connecting, and a Ping met by the drain loop. *)
Definition drained_ping_trace : list Input :=
  [CallClose default_close_info; CreateOk 7 None None; EarlyCloseOk;
   DrainEvent 3].

Definition ping_pong_trace : list Input :=
  [CreateOk 7 None None; CallPull;
   NextEvent 0 3 VUndefined 0; PongOk 0;
   NextEvent 0 0 (VString [104%N; 105%N]) 0;
   ResumeInner 0 0; CallPull;
   NextEvent 1 3 VUndefined 0].

Definition ping_pong_world : World :=
  Eval vm_compute in
    match run ping_pong_trace (construct SigAbsent) with
    | Some w => w
    | None => blank SigAbsent
    end.

(** ** The event pump: a flood of Pings *)

(** [n] consecutive Pings delivered to chain [j], each Pong send completing. *)
Fixpoint ping_flood (j : nat) (n : nat) : list Input :=
  match n with
  | O => []
  | S n' => NextEvent j 3 VUndefined 0 :: PongOk j :: ping_flood j n'
  end.

(** The number of activations of [pull] suspended in chain [j]. *)
Definition pull_depth (j : nat) (w : World) : nat :=
  match pulls w !! j with
  | Some c => length c
  | None => O
  end.

(** ** The streams when [closed] settles *)

(** An open instance whose pull received an Error event. *)
Definition errored_trace : list Input :=
  [CreateOk 7 None None; CallPull; NextEvent 0 5 (VString [98%N]) 0].

Definition errored_world : World :=
  Eval vm_compute in
    match run errored_trace (construct SigAbsent) with
    | Some w => w
    | None => blank SigAbsent
    end.

(** An open instance whose pull received the terminal Closed event. *)
Definition clean_close_trace : list Input :=
  [CreateOk 7 None None; CallPull; NextEvent 0 6 VUndefined 0].

Definition clean_close_world : World :=
  Eval vm_compute in
    match run clean_close_trace (construct SigAbsent) with
    | Some w => w
    | None => blank SigAbsent
    end.

Definition stream_closes (w : World) : nat * nat :=
  (count_where is_controller_close (log w),
   count_where is_writable_close (log w)).

(** ** Closing or aborting while connecting *)

Definition both_rejected (e : Value) (w : World) : Prop :=
  _connection w = Some (Rejected e) /\ _closed w = Some (Rejected e).

Definition is_settled (d : Deferred) : bool := negb (is_pending d).

(** Exactly one of [connection] and [closed] is settled. *)
Definition exactly_one_settled (w : World) : bool :=
  xorb (is_settled (_connection w)) (is_settled (_closed w)).

Definition is_create (e : Effect) : bool :=
  match e with
  | OpCreate => true
  | _ => false
  end.

(** [close] is called before the connect attempt settles; the connect then
    succeeds and the peer answers the close frame. *)
Definition early_close_trace : list Input :=
  [CallClose default_close_info; CreateOk 7 None None; EarlyCloseOk;
   DrainEvent 1000; DrainThen].

Definition early_close_world : World :=
  Eval vm_compute in
    match run early_close_trace (construct SigAbsent) with
    | Some w => w
    | None => blank SigAbsent
    end.

(** The signal fires before the connect attempt settles, which interrupts it. *)
Definition abort_trace : list Input :=
  [SignalAbort (VHost 1); CreateErr true (VHost 2)].

Definition abort_world : World :=
  Eval vm_compute in
    match run abort_trace (construct SigIdle) with
    | Some w => w
    | None => blank SigIdle
    end.

Definition early_closing (rid : Z) (w : World) : Prop :=
  phase w = EarlyClosing rid /\ _connection w = None /\ _closed w = None.

Definition draining (rid : Z) (w : World) : Prop :=
  phase w = Draining rid /\ _connection w = None /\ _closed w = None.

(** The instance right after [close()] was called while connecting. *)
Definition closing_early_world : World :=
  Eval vm_compute in exec (close default_close_info) (construct SigAbsent).

(** * Further observations on the same model *)

(** ** The handle and the transport operations *)

Definition is_try_close (e : Effect) : bool :=
  match e with
  | CoreTryClose _ => true
  | _ => false
  end.

(** How often [core.tryClose(this[_rid])] was called. *)
Definition handle_releases (w : World) : nat :=
  count_where is_try_close (log w).

(** The rid argument of an operation on the connection. *)
Definition effect_rid (e : Effect) : option (option Z) :=
  match e with
  | OpClose r _ _ | OpNextEvent r | OpSendPong r | CoreTryClose r => Some r
  | _ => None
  end.

Definition rid_defined (e : Effect) : bool :=
  match effect_rid e with
  | Some None => false
  | _ => true
  end.

(** An early close keeps the streams from being built. *)
Definition early_inv (w : World) : Prop :=
  _earlyClose w = true -> is_open (phase w) = false.

(** [_rid] is set exactly when the streams are built. *)
Definition rid_inv (w : World) : Prop :=
  if is_open (phase w) then exists rid, _rid w = Some rid else _rid w = None.

(** Nothing of the open phase is in flight before the streams are built. *)
Definition idle_inv (w : World) : Prop :=
  is_open (phase w) = false ->
  pulls w = [] /\ closeOps w = 0%nat /\ timers w = 0%nat.

(** The four together. *)
Definition base_inv (w : World) : Prop :=
  connect_inv w /\ idle_inv w /\ rid_inv w /\ early_inv w.

(** The handle is released only on an open instance. *)
Definition release_inv (w : World) : Prop :=
  is_open (phase w) = false -> handle_releases w = 0%nat.

(** Once [closed] is settled on an open instance whose rid is truthy, the
    handle has been released. *)
Definition settled_release_inv (w : World) : Prop :=
  is_open (phase w) = true -> is_pending (_closed w) = false ->
  truthy_rid (_rid w) = true -> handle_releases w <> 0%nat.

(** Every operation on the connection names a rid. *)
Definition rids_defined (w : World) : Prop :=
  Forall (fun e => rid_defined e = true) (log w).

(** ** What goes out in a close frame *)

(** The code is absent only with an empty reason; otherwise it is 0, 1000
    or in [3000, 5000). *)
Definition close_code_sendable (c : option Z) (r : USVString) : bool :=
  match c with
  | None => negb (truthy_reason r)
  | Some z => (z =? 0) || (z =? 1000) || ((3000 <=? z) && (z <? 5000))
  end.

Definition close_frame_ok (e : Effect) : bool :=
  match e with
  | OpClose _ c (Some r) =>
      (TypedArrayPrototypeGetByteLength (TextEncoder_encode r) <=? 123)%nat
      && close_code_sendable c r
  | OpClose _ c None => is_undefined c
  | _ => true
  end.

Definition close_frames_ok (w : World) : Prop :=
  Forall (fun e => close_frame_ok e = true) (log w).

(** ** The connect attempt *)

Definition is_check_permission (e : Effect) : bool :=
  match e with
  | OpCheckPermissionAndCancelHandle => true
  | _ => false
  end.

Definition connect_calls (n m : nat) (w : World) : Prop :=
  count_where is_check_permission (log w) = n /\
  count_where is_create (log w) = m.

(** The phases in which the connect attempt has succeeded and a
    continuation of the instance is still due or the streams exist. *)
Definition connected_phase (p : ConnectPhase) : bool :=
  match p with
  | EarlyClosing _ | Draining _ | DrainDone | Open => true
  | Creating | Finished => false
  end.

(** The abort listener is registered only on a signal that has not fired,
    and while connecting it is registered on such a signal. *)
Definition listener_inv (w : World) : Prop :=
  (abortListener w = true ->
   signal w = SigIdle /\ connected_phase (phase w) = false) /\
  (phase w = Creating -> signal w = SigIdle -> abortListener w = true).

(** ** Inputs that leave [closed] alone *)

(** Everything but the connect continuations, a delivered event, the
    resumed timeout check and the failure of a close operation. *)
Definition is_quiet (i : Input) : bool :=
  match i with
  | SignalAbort _ | CallClose _ | CallSinkClose _ | CloseOpOk | TimerFire _
  | CallPull | NextEventFail _ | PongOk _ | PongFail _ | ResumeInner _ _
  | ClosedReaction | CloseSentReaction => true
  | _ => false
  end.

(** Nothing is left that could settle [connection] or [closed]. *)
Definition abandoned (w : World) : Prop :=
  phase w = Finished /\ _connection w = None /\ _closed w = None /\
  closeOps w = 0%nat /\ timers w = 0%nat /\ pulls w = [].

(** The info the stream hooks pass to [close] first. *)
Definition hook_close_info (r : option WebSocketCloseInfo) : WebSocketCloseInfo :=
  match r with
  | Some i => match code i with Some _ => i | None => default_close_info end
  | None => default_close_info
  end.


(** How [closed] is settled by an Error event (kind 5), by the Closed
    event (kind 6) and by an event of any other kind outside 0..3. *)
Definition terminal_settlement (kind : Z) (value : Value) : Settlement :=
  if kind =? 5 then Rejected (VError value)
  else if kind =? 6 then Resolved VUndefined
  else Resolved (VCloseEvent kind value).

Definition terminal_effects (kind : Z) (value : Value) (rid : option Z)
  : list Effect :=
  if kind =? 5
  then [CoreTryClose rid; ControllerError (VError value);
        Settle Closed (terminal_settlement kind value) true]
  else [CoreTryClose rid; Settle Closed (terminal_settlement kind value) true].

(** Time passes, the consumer pulls and closes, the transport fails. *)
Definition quiet_trace : list Input :=
  [CallPull; NextEventFail 0;
   CallClose {| code := Some 1000; reason := [] |}; CloseOpOk;
   TimerFire 1000; CloseSentReaction; CallSinkClose None; CloseOpOk;
   TimerFire 99999999].

(** A close requested while connecting, the connect succeeding, and the
    first [op_ws_next_event] of the drain loop pending. *)
Definition draining_world : World :=
  Eval vm_compute in
    match run [CallClose default_close_info; CreateOk 7 None None; EarlyCloseOk]
            (construct SigAbsent) with
    | Some w => w
    | None => blank SigAbsent
    end.

(** A fresh instance with a signal that has not fired. *)
Definition connecting_world : World := Eval vm_compute in construct SigIdle.

(** ** The checks at the head of the constructor, lines 100-133

    [new URL(url)] is the platform's parser; the checks read the
    [protocol], [hash] and [href] of its result. *)

Module URL.
Record t : Type := { protocol : string; hash : string; href : string }.
End URL.

Definition StringPrototypeEndsWith (s suffix : string) : bool :=
  (String.length suffix <=? String.length s)%nat
  && String.eqb
       (substring (String.length s - String.length suffix)
          (String.length suffix) s)
       suffix.

(** [SetPrototypeGetSize(new Set(l))]: the number of distinct entries. *)
Definition SetPrototypeGetSize (l : list USVString) : nat :=
  length (remove_dups l).

Definition scheme_error : Value :=
  VDOMException "Only ws & wss schemes are allowed in a WebSocket URL."
    "SyntaxError".

Definition fragment_error : Value :=
  VDOMException "Fragments are not allowed in a WebSocket URL." "SyntaxError".

Definition protocol_error : Value :=
  VDOMException "Can't supply multiple times the same protocol." "SyntaxError".

(** [StringPrototypeToLowerCase] is the platform's; the checks are stated
    for any such function. *)
Definition constructor_checks
  (StringPrototypeToLowerCase : USVString -> USVString)
  (wsURL : URL.t) (protocols : list USVString) : Completion :=
  if negb (String.eqb (URL.protocol wsURL) "ws:")
     && negb (String.eqb (URL.protocol wsURL) "wss:")
  then Throw scheme_error
  else if negb (String.eqb (URL.hash wsURL) "")
          || StringPrototypeEndsWith (URL.href wsURL) "#"
  then Throw fragment_error
  else if negb (length protocols
                =? SetPrototypeGetSize
                     (map StringPrototypeToLowerCase protocols))%nat
  then Throw protocol_error
  else Normal.

(** The constructor: the checks, then the body from line 140 on. *)
Definition new_WebSocketStream
  (StringPrototypeToLowerCase : USVString -> USVString)
  (wsURL : URL.t) (protocols : list USVString) (sig : SignalState)
  : Completion * option World :=
  match constructor_checks StringPrototypeToLowerCase wsURL protocols with
  | Normal => (Normal, Some (construct sig))
  | Throw e => (Throw e, None)
  end.

(** Lower-casing of the letters A-Z, which is what [toLowerCase] does on
    ASCII strings. *)
Definition ascii_lower (s : USVString) : USVString :=
  map (fun c => if (65 <=? c)%N && (c <=? 90)%N then (c + 32)%N else c) s.

(** ** The promise returned by a stream hook

    The hooks are async functions and end with [await this.closed] (lines
    233, 241 and 341): the promise a hook returns is rejected with what its
    synchronous part threw, if it threw; otherwise it is pending while
    [closed] is, fulfilled once [closed] is fulfilled, and rejected with the
    value [closed] was rejected with. *)

Inductive PromiseState : Type :=
| PromisePending
| PromiseFulfilled
| PromiseRejected (e : Value).

Definition await_closed (w : World) : PromiseState :=
  match _closed w with
  | None => PromisePending
  | Some (Resolved _) => PromiseFulfilled
  | Some (Rejected e) => PromiseRejected e
  end.

(** The promise of the hook called with [r] in [w], seen in a later world
    [w']. *)
Definition hook_promise (r : option WebSocketCloseInfo) (w w' : World)
  : PromiseState :=
  match fst (sink_close r w) with
  | Throw e => PromiseRejected e
  | Normal => await_closed w'
  end.

(** ** The settlement paths

    Which deferred the continuation behind an input calls [resolve] or
    [reject] on when it runs in [w], and with what; [None] when it makes no
    such call on [d].  Read off line 343 (connection established), lines
    353-361 (connect failure), 186-201 (close while connecting), 258-264
    (Error event), 278-291 (Closed and Close events), 300-307 (the
    close-response timeout) and 420-428 (the timer and the failure of
    [op_ws_close]). *)
Definition settlement_of (i : Input) (w : World) (d : Which)
  : option Settlement :=
  match i, d with
  | CreateOk _ protocol extensions, Connection =>
      if _earlyClose w then None
      else Some (Resolved (VConnection (default [] extensions)
                             (default [] protocol)))
  | CreateErr interrupted err, (Connection | Closed) =>
      if interrupted then
        match signal w with
        | SigAbsent => None
        | SigIdle => Some (Rejected VUndefined)
        | SigAborted r => Some (Rejected r)
        end
      else Some (Rejected err)
  | (EarlyCloseErr | DrainThen), (Connection | Closed) =>
      Some (Rejected closed_while_connecting)
  | CloseOpErr err, Closed => Some (Rejected err)
  | TimerFire now, CloseSent => Some (Resolved (VNumber now))
  | NextEvent _ kind value _, Closed =>
      if (0 <=? kind) && (kind <=? 3) then None
      else Some (terminal_settlement kind value)
  | ResumeCloseSent j, Closed =>
      match pulls w !! j, _closeSent w with
      | Some (AwaitCloseSent now value :: _), Some (Resolved (VNumber ts)) =>
          if now - ts <=? CLOSE_RESPONSE_TIMEOUT then None
          else Some (Resolved value)
      | _, _ => None
      end
  | _, _ => None
  end.

(** Lines 146-150: what the constructor itself settles. *)
Definition initial_settlement (sig : SignalState) (d : Which)
  : option Settlement :=
  match sig, d with
  | SigAborted r, (Connection | Closed) => Some (Rejected r)
  | _, _ => None
  end.

(** The first settlement asked for is the one a deferred keeps. *)
Definition first_wins (cur : Deferred) (asked : option Settlement) : Deferred :=
  match cur with
  | Some o => Some o
  | None => asked
  end.

(** A close requested while connecting; the connect succeeds, the close
    frame goes out, and [op_ws_next_event] fails in the drain loop. *)
Definition drain_failure_trace : list Input :=
  [CallClose default_close_info; CreateOk 7 None None; EarlyCloseOk; DrainFail].

Definition drain_failed_world : World :=
  Eval vm_compute in
    match run drain_failure_trace (construct SigAbsent) with
    | Some w => w
    | None => blank SigAbsent
    end.

(** No signal was given, and [op_ws_create] fails as interrupted. *)
Definition interrupted_trace : list Input := [CreateErr true (VHost 0)].

Definition interrupted_world : World :=
  Eval vm_compute in
    match run interrupted_trace (construct SigAbsent) with
    | Some w => w
    | None => blank SigAbsent
    end.

(** Whatever happens from [w] on, [connection] and [closed] are pending
    and no settlement of either is on record. *)
Definition stays_pending (w : World) : Prop :=
  forall tr w',
    run tr w = Some w' ->
    _connection w' = None /\ _closed w' = None /\
    settlements Connection w' = 0%nat /\ settlements Closed w' = 0%nat.

(** * Proofs *)

(** ** Handlers preserve properties *)

Section Preserves.
Variable P : World -> Prop.

Lemma preserves_ret {A : Type} (a : A) : preserves P (ret a).
Proof. intros w H. exact H. Qed.

Lemma preserves_get {A : Type} (f : World -> A) : preserves P (get f).
Proof. intros w H. exact H. Qed.

Lemma preserves_bind {A B : Type} (m : M A) (k : A -> M B) :
  preserves P m -> (forall a, preserves P (k a)) -> preserves P (bind m k).
Proof.
  intros Hm Hk w H. unfold bind.
  specialize (Hm w H). destruct (m w) as [a w']. apply Hk, Hm.
Qed.

Lemma preserves_exec {A : Type} (m : M A) (w : World) :
  preserves P m -> P w -> P (exec m w).
Proof. intros Hm H. apply Hm, H. Qed.
End Preserves.

(** ** One settlement per deferred *)

Ltac solve_frame :=
  let w := fresh "w" in
  let d := fresh "d" in
  intros w; destruct w; split; [reflexivity | intros d; destruct d; reflexivity].

Lemma one_shot_frame (f : World -> World) :
  frame_only f -> preserves one_shot (modify f).
Proof.
  intros Hf w H d. unfold modify, settlements, settle_calls; simpl.
  destruct (Hf w) as [Hl Hd]. rewrite Hl, Hd. apply H.
Qed.

Lemma deferred_set_log (d : Which) (l : list Effect) (w : World) :
  deferred d (set_log l w) = deferred d w.
Proof. destruct d; reflexivity. Qed.

Lemma one_shot_emit (e : Effect) :
  (forall d, is_settle_call d e = false) -> preserves one_shot (emit e).
Proof.
  intros He w H d. destruct (H d) as [Hs Hc]. specialize (He d).
  assert (is_settlement d e = false) as He'.
  { destruct e; try reflexivity. destruct took_effect; [exact He | reflexivity]. }
  unfold emit, modify, settlements, settle_calls in *. cbn [snd].
  rewrite deferred_set_log. cbn [log set_log count_where].
  rewrite He, He'. split; assumption.
Qed.

Lemma one_shot_settle (d : Which) (o : Settlement) :
  preserves one_shot (settle d o).
Proof.
  intros w H d'. pose proof (H d') as [Hs Hc]. pose proof (H d) as [Hsd Hcd].
  unfold settlements, settle_calls in *.
  destruct w; destruct d, d'; simpl in *;
    unfold settle, bind, get, modify, emit; simpl;
    repeat match goal with
           | |- context [is_pending ?x] => destruct x; simpl in *
           end;
    split; auto; try discriminate; try lia; intros _; auto.
Qed.

Ltac unfold_handlers :=
  unfold close, sink_close, close_op_fulfilled, close_op_rejected, close_timer,
    construct_body, signal_abort, create_fulfilled, create_rejected,
    early_close_fulfilled, early_close_rejected, drain_event, drain_then,
    reject_both, call_pull, on_event, after_switch, pong_sent,
    close_sent_resumed, closed_reaction, close_sent_reaction, set_chain,
    resolve, reject.

Ltac one_shot_steps :=
  repeat first
    [ apply preserves_ret
    | apply preserves_get
    | apply one_shot_settle
    | apply one_shot_emit; let d := fresh "d" in intros d; destruct d; reflexivity
    | apply one_shot_frame; solve_frame
    | apply preserves_bind; [| intros ?]
    | match goal with
      | |- preserves _ (if ?b then _ else _) => destruct b
      | |- preserves _ (match ?x with _ => _ end) => destruct x
      end ].

Lemma one_shot_close (closeInfo : WebSocketCloseInfo) :
  preserves one_shot (close closeInfo).
Proof. unfold_handlers. one_shot_steps. Qed.

Lemma one_shot_sink_close (r : option WebSocketCloseInfo) :
  preserves one_shot (sink_close r).
Proof.
  unfold sink_close. apply preserves_bind; [apply one_shot_close |].
  intros []; [apply preserves_ret | apply one_shot_close].
Qed.

Lemma one_shot_construct (sig : SignalState) : one_shot (construct sig).
Proof.
  apply (preserves_exec one_shot construct_body (blank sig)).
  - unfold_handlers. one_shot_steps.
  - intros []; split; reflexivity.
Qed.

Lemma one_shot_step (i : Input) (w w' : World) :
  step i w = Some w' -> one_shot w -> one_shot w'.
Proof.
  intros Hs H. destruct i; simpl in Hs;
    repeat match type of Hs with
           | context [match ?x with _ => _ end] => destruct x eqn:?
           end;
    try discriminate; injection Hs as <-;
    try (apply (preserves_exec one_shot);
         [ first [ apply one_shot_close | apply one_shot_sink_close
                 | unfold_handlers; one_shot_steps ]
         | first [ exact H
                 | refine (one_shot_frame _ _ w H); solve_frame ] ]).
  refine (one_shot_frame (set_phase Finished) _ w H); solve_frame.
Qed.

Lemma one_shot_run (tr : list Input) (w w' : World) :
  run tr w = Some w' -> one_shot w -> one_shot w'.
Proof.
  revert w. induction tr as [| i tr IH]; simpl; intros w Hr H.
  - injection Hr as <-. exact H.
  - destruct (step i w) as [w1 |] eqn:Hs; [| discriminate].
    eapply IH; [exact Hr |]. eapply one_shot_step; eauto.
Qed.

Lemma one_shot_reachable (w : World) : reachable w -> one_shot w.
Proof.
  intros (sig & tr & Hr). eapply one_shot_run; [exact Hr |].
  apply one_shot_construct.
Qed.

(** ** Invariants of [run] *)

Lemma invariant_run (P : World -> Prop) :
  (forall i w w', step i w = Some w' -> P w -> P w') ->
  forall tr w w', run tr w = Some w' -> P w -> P w'.
Proof.
  intros Hstep tr. induction tr as [| i tr IH]; simpl; intros w w' Hr H.
  - injection Hr as <-. exact H.
  - destruct (step i w) as [w1 |] eqn:Hs; [| discriminate].
    eapply IH; [exact Hr |]. eapply Hstep; eauto.
Qed.

Ltac unfold_monad :=
  cbv [exec settle emit bind ret get modify] in *.

Ltac break_match_hyp H :=
  repeat match type of H with
         | context [match ?x with _ => _ end] => destruct x eqn:?
         end.

Ltac break_match_goal :=
  repeat match goal with
         | |- context [match ?x with _ => _ end] =>
             lazymatch x with
             | context [match _ with _ => _ end] => fail
             | _ => destruct x eqn:?; simpl
             end
         end.

(** Inversion of an enabled step: [w'] is the handler run on [w]. *)
Ltac step_inv Hs :=
  unfold step in Hs; break_match_hyp Hs; try discriminate; injection Hs as <-.

Lemma lookup_nil_frames (j : nat) (c : list Frame) :
  (@nil (list Frame)) !! j = Some c -> False.
Proof. rewrite lookup_nil. discriminate. Qed.

Ltac tidy_hyps :=
  repeat match goal with
         | H : _ /\ _ |- _ => destruct H
         | H : Some _ = Some _ |- _ => injection H as ?
         | H : [] !! _ = Some _ |- _ => apply lookup_nil_frames in H; destruct H
         | H : is_open ?p = false, H' : context [is_open ?p] |- _ =>
             rewrite H in H'; simpl in H'
         end.

Ltac open_world :=
  match goal with
  | w : World |- _ => destruct w
  end;
  simpl in *; unfold_handlers; unfold_monad; simpl.

Ltac finish :=
  simpl in *; tidy_hyps; subst; simpl in *;
  try discriminate; try congruence; auto.

(** *** The connect phase and the two public deferreds *)

Ltac connect_inv_crush :=
  unfold connect_inv in *; open_world;
  match goal with
  | H : match ?c with _ => _ end |- _ => destruct c as [[]|]
  end;
  finish; break_match_goal; finish.

Lemma connect_inv_close (closeInfo : WebSocketCloseInfo) :
  preserves connect_inv (close closeInfo).
Proof. intros w H. connect_inv_crush. Qed.

Lemma connect_inv_step (i : Input) (w w' : World) :
  step i w = Some w' -> connect_inv w -> connect_inv w'.
Proof.
  intros Hs H. destruct i; step_inv Hs; try solve [connect_inv_crush].
  apply (preserves_exec connect_inv); [| exact H]. unfold sink_close.
  apply preserves_bind; [apply connect_inv_close |].
  intros []; [apply preserves_ret | apply connect_inv_close].
Qed.

Lemma connect_inv_reachable (w : World) : reachable w -> connect_inv w.
Proof.
  intros (sig & tr & Hr).
  eapply (invariant_run connect_inv connect_inv_step); [exact Hr |].
  destruct sig; unfold connect_inv; simpl; repeat split.
Qed.

(** *** [_closeSent] only ever holds a timestamp *)

Ltac closeSent_inv_crush :=
  unfold closeSent_inv in *; open_world;
  match goal with
  | H : _ \/ _ |- _ => destruct H as [H | [? H]]
  end;
  finish; break_match_goal; finish; eauto.

Lemma closeSent_inv_close (closeInfo : WebSocketCloseInfo) :
  preserves closeSent_inv (close closeInfo).
Proof. intros w H. closeSent_inv_crush. Qed.

Lemma closeSent_inv_step (i : Input) (w w' : World) :
  step i w = Some w' -> closeSent_inv w -> closeSent_inv w'.
Proof.
  intros Hs H. destruct i; step_inv Hs; try solve [closeSent_inv_crush].
  apply (preserves_exec closeSent_inv); [| exact H]. unfold sink_close.
  apply preserves_bind; [apply closeSent_inv_close |].
  intros []; [apply preserves_ret | apply closeSent_inv_close].
Qed.

Lemma closeSent_inv_reachable (w : World) : reachable w -> closeSent_inv w.
Proof.
  intros (sig & tr & Hr).
  eapply (invariant_run closeSent_inv closeSent_inv_step); [exact Hr |].
  destruct sig; left; reflexivity.
Qed.

(** The timestamp read at line 300 is always there once [_closeSent] is
    fulfilled. *)
Lemma close_sent_has_timestamp (w : World) :
  reachable w -> is_fulfilled (_closeSent w) = true ->
  exists ts, _closeSent w = Some (Resolved (VNumber ts)).
Proof.
  intros Hw Hf. destruct (closeSent_inv_reachable w Hw) as [Hn | Hts].
  - rewrite Hn in Hf. discriminate.
  - exact Hts.
Qed.

(** *** A settled deferred keeps its settlement *)

Ltac holds_crush :=
  unfold holds in *; open_world;
  match goal with
  | d : Which |- _ => destruct d
  end;
  finish; break_match_goal; finish.

Lemma holds_close (d : Which) (o : Settlement) (closeInfo : WebSocketCloseInfo) :
  preserves (holds d o) (close closeInfo).
Proof. intros w H. holds_crush. Qed.

Lemma holds_step (d : Which) (o : Settlement) (i : Input) (w w' : World) :
  step i w = Some w' -> holds d o w -> holds d o w'.
Proof.
  intros Hs H. destruct i; step_inv Hs; try solve [holds_crush].
  apply (preserves_exec (holds d o)); [| exact H]. unfold sink_close.
  apply preserves_bind; [apply holds_close |].
  intros []; [apply preserves_ret | apply holds_close].
Qed.

Lemma holds_run (d : Which) (o : Settlement) (tr : list Input) (w w' : World) :
  run tr w = Some w' -> deferred d w = Some o -> deferred d w' = Some o.
Proof.
  intros Hr H.
  exact (invariant_run (holds d o) (holds_step d o) tr w w' Hr H).
Qed.

(** *** The reaction on [closed] installed by [start] *)

Ltac reaction_inv_crush :=
  unfold reaction_inv in *; open_world; finish; break_match_goal; finish;
  repeat match goal with
         | H : is_pending ?x = true |- _ =>
             is_var x; destruct x; simpl in H; try discriminate
         | H : ?b = true -> _ |- _ => is_var b; destruct b
         | H : true = true -> _ |- _ => specialize (H eq_refl)
         | H : _ && _ = true |- _ => apply andb_prop in H; destruct H
         end;
  finish; repeat split; finish.

Lemma reaction_inv_close (closeInfo : WebSocketCloseInfo) :
  preserves reaction_inv (close closeInfo).
Proof. intros w H. reaction_inv_crush. Qed.

Lemma reaction_inv_step (i : Input) (w w' : World) :
  step i w = Some w' -> reaction_inv w -> reaction_inv w'.
Proof.
  intros Hs H. destruct i; step_inv Hs; try solve [reaction_inv_crush].
  apply (preserves_exec reaction_inv); [| exact H]. unfold sink_close.
  apply preserves_bind; [apply reaction_inv_close |].
  intros []; [apply preserves_ret | apply reaction_inv_close].
Qed.

Lemma reaction_inv_reachable (w : World) : reachable w -> reaction_inv w.
Proof.
  intros (sig & tr & Hr).
  eapply (invariant_run reaction_inv reaction_inv_step); [exact Hr |].
  destruct sig; unfold reaction_inv; simpl; repeat split; discriminate.
Qed.

(** * The properties *)

(** ** Validation in [close] *)

Example utf8_two_bytes : TextEncoder_encode [0xE9%N] = [0xC3%N; 0xA9%N].
Proof. reflexivity. Qed.

Example utf8_three_bytes :
  TextEncoder_encode [0x20AC%N] = [0xE2%N; 0x82%N; 0xAC%N].
Proof. reflexivity. Qed.

Example utf8_four_bytes :
  TextEncoder_encode [0x1F600%N] = [0xF0%N; 0x9F%N; 0x98%N; 0x80%N].
Proof. reflexivity. Qed.

Lemma open_world_reachable : reachable open_world.
Proof. exists SigAbsent, open_trace. vm_compute. reflexivity. Qed.

(** A failed validation leaves the world as it was. *)
Lemma close_throw_unchanged (closeInfo : WebSocketCloseInfo) (w : World) (e : Value) :
  fst (close closeInfo w) = Throw e -> close closeInfo w = (Throw e, w).
Proof.
  unfold close.
  destruct (truthy_code (code closeInfo) && negb (code_allowed (code closeInfo)));
    [intros H; simpl in H; rewrite <- H; reflexivity |].
  destruct (truthy_reason (reason closeInfo)
            && (123 <? reason_byte_length closeInfo)%nat);
    [intros H; simpl in H; rewrite <- H; reflexivity |].
  unfold_monad.
  destruct (is_pending (_connection w)); simpl; [discriminate |].
  destruct (is_pending (_closed w)); simpl; discriminate.
Qed.

(** For a converted code other than 0 the check is the one of the error
    message. *)
Lemma close_code_nonzero (c : Z) (r : USVString) (w : World) :
  c <> 0 ->
  (close {| code := Some c; reason := r |} w = (Throw close_code_error, w) <->
   ~ (c = 1000 \/ 3000 <= c < 5000)).
Proof.
  intros Hc. unfold close; simpl.
  assert ((c =? 0) = false) as -> by lia. simpl.
  destruct ((c =? 1000) || (3000 <=? c) && (c <? 5000)) eqn:Hok; simpl.
  - split; [| lia].
    intros H. exfalso. revert H.
    destruct (truthy_reason r && (123 <? _)%nat); [discriminate |].
    unfold_monad.
    destruct (is_pending (_connection w)); simpl; [discriminate |].
    destruct (is_pending (_closed w)); simpl; discriminate.
  - split; [lia | reflexivity].
Qed.

(** C2. Code 0 is not 1000 and not in [3000, 5000), yet [close({code: 0})]
    passes the validation in every world, and on an open instance it goes
    on to send a close frame carrying code 0. *)
Theorem close_code_zero_passes_validation :
  code_allowed (Some 0) = false /\
  (forall (r : USVString) (w : World),
      fst (close {| code := Some 0; reason := r |} w) <> Throw close_code_error) /\
  close {| code := Some 0; reason := [] |} open_world
  = (Normal,
     set_closeOps 1
       (set_log (OpClose (Some 7) (Some 0) (Some []) :: log open_world)
          open_world)).
Proof.
  split; [reflexivity |]. split; [| reflexivity].
  intros r w. unfold close; simpl.
  destruct (truthy_reason r && (123 <? _)%nat); [discriminate |].
  unfold_monad.
  destruct (is_pending (_connection w)); simpl; [discriminate |].
  destruct (is_pending (_closed w)); simpl; discriminate.
Qed.

Lemma close_valid_normal (closeInfo : WebSocketCloseInfo) (w : World) :
  valid_close_info closeInfo -> fst (close closeInfo w) = Normal.
Proof.
  intros [Hc Hr]. unfold close.
  assert (truthy_code (code closeInfo) && negb (code_allowed (code closeInfo))
          = false) as ->.
  { destruct Hc as [-> | [-> | (c & -> & Hc)]]; simpl; [reflexivity .. |].
    assert ((3000 <=? c) && (c <? 5000) = true) as -> by lia.
    rewrite orb_true_r. simpl. apply andb_false_r. }
  assert ((123 <? reason_byte_length closeInfo)%nat = false) as ->
    by (apply Nat.ltb_ge; exact Hr).
  rewrite andb_false_r. unfold_monad.
  destruct (is_pending (_connection w)); simpl; [reflexivity |].
  destruct (is_pending (_closed w)); reflexivity.
Qed.

Lemma close_valid_open (closeInfo : WebSocketCloseInfo) (w : World) :
  valid_close_info closeInfo ->
  _connection w <> None -> _closed w = None ->
  log (exec (close closeInfo) w)
  = OpClose (_rid w) (close_frame_code closeInfo) (Some (reason closeInfo))
      :: log w.
Proof.
  intros Hv Hconn Hcl. pose proof (close_valid_normal closeInfo w Hv) as Hn.
  unfold close, close_frame_code in *.
  destruct (truthy_code (code closeInfo) && negb (code_allowed (code closeInfo)));
    [discriminate |].
  destruct (truthy_reason (reason closeInfo)
            && (123 <? reason_byte_length closeInfo)%nat); [discriminate |].
  clear Hn. unfold_monad. destruct (_connection w); [| congruence].
  simpl. rewrite Hcl. reflexivity.
Qed.

(** C8. A reason whose UTF-8 encoding is longer than 123 bytes makes
    [close({reason: r})] throw; the world is left exactly as it was, so no
    close frame was sent and nothing was recorded; a later call with valid
    arguments returns normally, and on an open instance it sends the close
    frame. *)
Theorem close_oversized_reason (r : USVString) (w : World) :
  (123 < TypedArrayPrototypeGetByteLength (TextEncoder_encode r))%nat ->
  close {| code := None; reason := r |} w = (Throw close_reason_error, w) /\
  forall closeInfo : WebSocketCloseInfo,
    valid_close_info closeInfo ->
    let w1 := exec (close {| code := None; reason := r |}) w in
    fst (close closeInfo w1) = Normal /\
    (_connection w <> None -> _closed w = None ->
     log (exec (close closeInfo) w1)
     = OpClose (_rid w) (close_frame_code closeInfo) (Some (reason closeInfo))
         :: log w).
Proof.
  intros Hlen.
  assert (close {| code := None; reason := r |} w = (Throw close_reason_error, w))
    as Hthrow.
  { unfold close, reason_byte_length; simpl.
    destruct r as [| c r]; [simpl in Hlen; lia |]. simpl truthy_reason.
    apply Nat.ltb_lt in Hlen. unfold TypedArrayPrototypeGetByteLength in *.
    rewrite Hlen. reflexivity. }
  split; [exact Hthrow |].
  intros closeInfo Hv w1. subst w1. unfold exec at 1 3. rewrite Hthrow. simpl.
  split; [apply close_valid_normal; exact Hv |].
  intros Hconn Hcl. apply close_valid_open; assumption.
Qed.

Lemma close_oversized_reason_example :
  (123 < TypedArrayPrototypeGetByteLength (TextEncoder_encode long_reason))%nat /\
  close {| code := None; reason := long_reason |} open_world
  = (Throw close_reason_error, open_world) /\
  fst (close {| code := Some 1000; reason := [111%N; 107%N] |}
         (exec (close {| code := None; reason := long_reason |}) open_world))
  = Normal.
Proof.
  assert (123 < TypedArrayPrototypeGetByteLength (TextEncoder_encode long_reason))%nat
    as Hlen by (vm_compute; lia).
  destruct (close_oversized_reason long_reason open_world Hlen) as [Ht Hnext].
  split; [exact Hlen |]. split; [exact Ht |].
  apply (Hnext {| code := Some 1000; reason := [111%N; 107%N] |}).
  split; [right; left; reflexivity | vm_compute; lia].
Defined.

(** ** Repeated [close] *)

Lemma reachable_extend (w w' : World) (tr : list Input) :
  reachable w -> run tr w = Some w' -> reachable w'.
Proof.
  intros (sig & tr0 & Hr) Hr'. exists sig, (tr0 ++ tr).
  revert Hr. generalize (construct sig).
  induction tr0 as [| i tr0 IH]; simpl; intros w0 Hr.
  - injection Hr as ->. exact Hr'.
  - destruct (step i w0); [apply IH; exact Hr | discriminate].
Qed.

(** Once [closed] is settled on a reachable world, [connection] is too. *)
Lemma closed_settled_connection_settled (w : World) :
  reachable w -> _closed w <> None -> _connection w <> None.
Proof.
  intros Hw Hcl Hconn. apply connect_inv_reachable in Hw.
  unfold connect_inv in Hw. rewrite Hconn in Hw. destruct Hw as [H _].
  congruence.
Qed.

(** C3, as stated, fails in the CloseSent state: a second [close] sends a
    second close frame. *)
Lemma close_in_close_sent_sends_again :
  run close_sent_trace (construct SigAbsent) = Some close_sent_world /\
  _closeSent close_sent_world = Some (Resolved (VNumber 1000)) /\
  _closed close_sent_world = None /\
  log (exec (close default_close_info) close_sent_world)
  = OpClose (Some 7) None (Some []) :: log close_sent_world /\
  exec (close default_close_info) close_sent_world <> close_sent_world.
Proof.
  repeat split; try (vm_compute; reflexivity).
  vm_compute. discriminate.
Qed.

(** C3, amended. Once [closed] is settled (the Closed and Errored states),
    every call of [close] leaves the world exactly as it was: no close
    frame is sent, nothing is recorded, no slot changes; so does any number
    of such calls.  While [closed] is pending on a connected instance, the
    CloseSent state included, a call with valid arguments sends a close
    frame. *)
Theorem close_after_settlement_is_noop (w : World)
  (closeInfos : list WebSocketCloseInfo) :
  reachable w ->
  (_closed w <> None ->
   (forall closeInfo, exec (close closeInfo) w = w) /\
   run (map CallClose closeInfos) w = Some w) /\
  (_closed w = None -> _connection w <> None ->
   forall closeInfo,
     valid_close_info closeInfo ->
     log (exec (close closeInfo) w)
     = OpClose (_rid w) (close_frame_code closeInfo) (Some (reason closeInfo))
         :: log w).
Proof.
  intros Hw. split.
  - intros Hcl.
    pose proof (closed_settled_connection_settled w Hw Hcl) as Hconn.
    assert (forall closeInfo, exec (close closeInfo) w = w) as Hnoop.
    { intros closeInfo. unfold close.
      destruct (truthy_code (code closeInfo)
                && negb (code_allowed (code closeInfo))); [reflexivity |].
      destruct (truthy_reason (reason closeInfo)
                && (123 <? reason_byte_length closeInfo)%nat); [reflexivity |].
      unfold_monad. destruct (_connection w); [| congruence].
      simpl. destruct (_closed w); [reflexivity | congruence]. }
    split; [exact Hnoop |].
    induction closeInfos as [| c cs IH]; simpl; [reflexivity |].
    rewrite Hnoop. exact IH.
  - intros Hcl Hconn closeInfo Hv. apply close_valid_open; assumption.
Qed.

Lemma racing_world_reachable : reachable racing_world.
Proof. exists SigAbsent, racing_paths. vm_compute. reflexivity. Qed.

Lemma close_after_error_is_noop :
  _closed racing_world <> None /\
  exec (close {| code := Some 1000; reason := [] |}) racing_world = racing_world /\
  run [CallClose default_close_info; CallClose default_close_info] racing_world
  = Some racing_world.
Proof.
  assert (_closed racing_world <> None) as Hcl by (vm_compute; discriminate).
  destruct (close_after_settlement_is_noop racing_world
              [default_close_info; default_close_info]
              racing_world_reachable) as [Hsettled _].
  destruct (Hsettled Hcl) as [Hone Hmany].
  split; [exact Hcl |]. split; [apply Hone | exact Hmany].
Defined.

(** ** The event pump *)

Lemma lookup_set_frames (l : list (list Frame)) (j : nat) (c c0 : list Frame) :
  l !! j = Some c0 -> <[j := c]> l !! j = Some c.
Proof.
  intros H. apply list_lookup_insert_eq. eapply lookup_lt_Some. exact H.
Qed.

(** What lines 295-299 do once the switch is through. *)
Lemma after_switch_spec (w : World) (j : nat) (value : Value) (now : Z)
  (callers c0 : list Frame) :
  pulls w !! j = Some c0 ->
  let w1 := exec (after_switch j value now callers) w in
  log w1 = log w /\ _rid w1 = _rid w /\
  (forall d, deferred d w1 = deferred d w) /\
  pulls w1 !! j
  = Some (if is_fulfilled (_closeSent w) && is_pending (_closed w)
          then AwaitCloseSent now value :: callers
          else callers).
Proof.
  intros H.
  destruct w as [wrid conn cl sent early sig lis ph crr csr ops tim pl lg].
  simpl in *. unfold after_switch, set_chain. unfold_monad. simpl.
  destruct (is_fulfilled sent && is_pending cl); simpl;
    (split; [reflexivity |]; split; [reflexivity |];
     split; [intros []; reflexivity | eapply lookup_set_frames; exact H]).
Qed.

(** What lines 299-307 do once the timestamp has arrived. *)
Lemma close_sent_resumed_spec (w : World) (j : nat) (now ts : Z) (value : Value)
  (callers : list Frame) :
  pulls w !! j = Some (AwaitCloseSent now value :: callers) ->
  _closeSent w = Some (Resolved (VNumber ts)) ->
  _closed w = None ->
  exists w2,
    step (ResumeCloseSent j) w = Some w2 /\
    (now - ts <= CLOSE_RESPONSE_TIMEOUT ->
     _closed w2 = None /\
     pulls w2 !! j = Some (AwaitEvent :: callers) /\
     log w2 = OpNextEvent (_rid w) :: log w) /\
    (CLOSE_RESPONSE_TIMEOUT < now - ts ->
     _closed w2 = Some (Resolved value) /\
     pulls w2 !! j = Some callers /\
     log w2
     = CoreTryClose (_rid w) :: Settle Closed (Resolved value) true :: log w).
Proof.
  intros Hj Hsent Hcl. unfold step. rewrite Hj, Hsent.
  eexists. split; [reflexivity |].
  destruct w; simpl in *; subst. unfold close_sent_resumed, resolve, set_chain.
  unfold_monad. simpl.
  split; intros Hle.
  - apply Z.leb_le in Hle. rewrite Hle. simpl.
    split; [reflexivity |]. split; [| reflexivity].
    eapply lookup_set_frames; exact Hj.
  - apply Z.leb_gt in Hle. rewrite Hle. simpl.
    split; [reflexivity |]. split; [| reflexivity].
    eapply lookup_set_frames; exact Hj.
Qed.

Lemma run_app (tr1 tr2 : list Input) (w : World) :
  run (tr1 ++ tr2) w
  = match run tr1 w with
    | Some w1 => run tr2 w1
    | None => None
    end.
Proof.
  revert w. induction tr1 as [| i tr1 IH]; intros w; [reflexivity |].
  cbn [app run]. destruct (step i w); [apply IH | reflexivity].
Qed.

(** Two steps of a Ping: the Pong is sent, then [pull] calls itself. *)
Lemma ping_then_pong (w : World) (j : nat) (value : Value) (now : Z)
  (callers : list Frame) :
  pulls w !! j = Some (AwaitEvent :: callers) ->
  exists w2,
    run [NextEvent j 3 value now; PongOk j] w = Some w2 /\
    pulls w2 !! j = Some (AwaitEvent :: AwaitInner value :: callers) /\
    log w2 = OpNextEvent (_rid w) :: OpSendPong (_rid w) :: log w /\
    forall d, deferred d w2 = deferred d w.
Proof.
  intros Hj.
  set (w1 := exec (on_event true j 3 value now callers) w).
  assert (pulls w1 !! j = Some (AwaitPong value :: callers) /\
          log w1 = OpSendPong (_rid w) :: log w /\ _rid w1 = _rid w /\
          forall d, deferred d w1 = deferred d w)
    as (Hj1 & Hlog1 & Hrid1 & Hd1).
  { subst w1. destruct w; simpl in *.
    unfold on_event, set_chain; unfold_monad; cbn.
    split; [eapply lookup_set_frames; exact Hj |].
    split; [reflexivity |]. split; [reflexivity | intros []; reflexivity]. }
  set (w2 := exec (pong_sent j value callers) w1).
  assert (pulls w2 !! j = Some (AwaitEvent :: AwaitInner value :: callers) /\
          log w2 = OpNextEvent (_rid w1) :: log w1 /\
          forall d, deferred d w2 = deferred d w1) as (Hj2 & Hlog2 & Hd2).
  { subst w2. destruct w1; simpl in *.
    unfold pong_sent, set_chain; unfold_monad; cbn.
    split; [eapply lookup_set_frames; exact Hj1 |].
    split; [reflexivity | intros []; reflexivity]. }
  exists w2. split.
  - unfold run. unfold step at 1. rewrite Hj. fold w1.
    unfold step. rewrite Hj1. reflexivity.
  - split; [exact Hj2 |]. split; [rewrite Hlog2, Hlog1, Hrid1; reflexivity |].
    intros d. rewrite Hd2. apply Hd1.
Qed.

(** What line 255 leaves behind when [controller.enqueue] throws. *)
Lemma enqueue_throws_spec (w : World) (j : nat) (kind : Z) (value : Value)
  (callers : list Frame) :
  pulls w !! j = Some (AwaitEvent :: callers) ->
  kind = 0 \/ kind = 1 ->
  exists w1,
    step (EnqueueThrows j kind value) w = Some w1 /\
    pulls w1 !! j = Some [] /\
    log w1 = ControllerEnqueueThrew value :: log w /\
    forall d, deferred d w1 = deferred d w.
Proof.
  intros Hj Hk. unfold step. rewrite Hj.
  assert ((kind =? 0) || (kind =? 1) = true) as -> by lia.
  eexists. split; [reflexivity |].
  destruct w; simpl in *.
  destruct Hk as [-> | ->]; unfold on_event, set_chain; unfold_monad; cbn;
    (split; [eapply lookup_set_frames; exact Hj |]);
    (split; [reflexivity | intros []; reflexivity]).
Qed.




(** *** Pong *)




(** *** Ping *)

Ltac pump_output_crush :=
  unfold pump_output, pongs_sent in *; open_world; finish;
  break_match_goal; finish.

Lemma pump_output_close (n : nat) (l : list Value) (closeInfo : WebSocketCloseInfo) :
  preserves (pump_output n l) (close closeInfo).
Proof. intros w H. pump_output_crush. Qed.

Lemma pump_output_step (i : Input) (w w' : World) :
  step i w = Some w' ->
  pump_output
    ((if is_ping_pumped i then 1 else 0) + pongs_sent w)
    (rev (message_of i) ++ enqueued (log w)) w'.
Proof.
  intros Hs.
  assert (pump_output (pongs_sent w) (enqueued (log w)) w) as H
    by (split; reflexivity).
  destruct i; step_inv Hs; try solve [pump_output_crush].
  apply (preserves_exec (pump_output (pongs_sent w) (enqueued (log w))));
    [| exact H].
  unfold sink_close. apply preserves_bind; [apply pump_output_close |].
  intros []; [apply preserves_ret | apply pump_output_close].
Qed.

Lemma pump_output_run (tr : list Input) (w w' : World) :
  run tr w = Some w' ->
  pongs_sent w' = (count_inputs is_ping_pumped tr + pongs_sent w)%nat /\
  enqueued (log w') = rev (messages_of tr) ++ enqueued (log w).
Proof.
  revert w. induction tr as [| i tr IH]; simpl; intros w Hr.
  - injection Hr as <-. split; reflexivity.
  - destruct (step i w) as [w1 |] eqn:Hs; [| discriminate].
    destruct (pump_output_step i w w1 Hs) as [Hp He].
    destruct (IH w1 Hr) as [Hp' He'].
    rewrite Hp', He', Hp, He. unfold messages_of; simpl.
    split.
    + destruct (is_ping_pumped i); lia.
    + fold (messages_of tr). rewrite rev_app_distr, <- app_assoc. reflexivity.
Qed.

(** C7, as stated, fails for a Ping that reaches the early-close drain
    loop: the event is received and dropped, and no Pong is sent. *)
Lemma drained_ping_gets_no_pong :
  count_inputs is_ping_received drained_ping_trace = 1%nat /\
  exists w,
    run drained_ping_trace (construct SigAbsent) = Some w /\
    pongs_sent w = 0%nat /\
    rev (log w)
    = [OpCheckPermissionAndCancelHandle; OpCreate; OpClose (Some 7) None None;
       OpNextEvent (Some 7); OpNextEvent (Some 7)].
Proof.
  split; [reflexivity |]. eexists. split; [vm_compute; reflexivity |].
  split; reflexivity.
Qed.

Lemma messages_of_from_events (tr : list Input) (v : Value) :
  In v (messages_of tr) ->
  exists j kind now,
    In (NextEvent j kind v now) tr /\ (kind = 0 \/ kind = 1).
Proof.
  unfold messages_of. rewrite in_flat_map. intros (i & Hi & Hv).
  destruct i; simpl in Hv; try contradiction.
  destruct ((kind =? 0) || (kind =? 1)) eqn:Hk; simpl in Hv; [| contradiction].
  destruct Hv as [<- | []]. exists j, kind, now. split; [exact Hi | lia].
Qed.

Lemma inbound_items_run (sig : SignalState) (tr : list Input) (w : World) :
  run tr (construct sig) = Some w -> inbound_items w = messages_of tr.
Proof.
  intros Hr. destruct (pump_output_run tr _ w Hr) as [_ He].
  unfold inbound_items. rewrite He.
  replace (enqueued (log (construct sig))) with (@nil Value)
    by (destruct sig; reflexivity).
  rewrite app_nil_r. apply rev_involutive.
Qed.

(** C7, amended. In every execution, the number of Pong replies sent equals
    the number of Ping events delivered to the event pump, one
    [op_ws_send] per Ping; every item of the inbound stream is the payload
    of a Text or Binary event delivered to the pump; and the step that
    handles a Ping calls [op_ws_send] and adds no item. *)
Theorem ping_pong_in_the_pump (sig : SignalState) (tr : list Input) (w : World) :
  run tr (construct sig) = Some w ->
  pongs_sent w = count_inputs is_ping_pumped tr /\
  (forall v,
      In v (inbound_items w) ->
      exists j kind now,
        In (NextEvent j kind v now) tr /\ (kind = 0 \/ kind = 1)) /\
  (forall j value now w1,
      step (NextEvent j 3 value now) w = Some w1 ->
      log w1 = OpSendPong (_rid w) :: log w /\
      inbound_items w1 = inbound_items w).
Proof.
  intros Hr. destruct (pump_output_run tr _ w Hr) as [Hp _].
  split; [| split].
  - rewrite Hp.
    replace (pongs_sent (construct sig)) with 0%nat
      by (destruct sig; reflexivity).
    lia.
  - intros v Hv. rewrite (inbound_items_run sig tr w Hr) in Hv.
    apply messages_of_from_events, Hv.
  - intros j value now w1 Hs.
    assert (log w1 = OpSendPong (_rid w) :: log w) as Hlog
      by (step_inv Hs; destruct w; reflexivity).
    split; [exact Hlog |]. unfold inbound_items. rewrite Hlog. reflexivity.
Qed.

Lemma ping_pong_example :
  run ping_pong_trace (construct SigAbsent) = Some ping_pong_world /\
  pongs_sent ping_pong_world = 2%nat /\
  inbound_items ping_pong_world = [VString [104%N; 105%N]] /\
  forall v,
    In v (inbound_items ping_pong_world) ->
    exists j kind now,
      In (NextEvent j kind v now) ping_pong_trace /\ (kind = 0 \/ kind = 1).
Proof.
  assert (run ping_pong_trace (construct SigAbsent) = Some ping_pong_world)
    as Hr by (vm_compute; reflexivity).
  destruct (ping_pong_in_the_pump SigAbsent ping_pong_trace _ Hr)
    as (Hp & Hi & _).
  split; [exact Hr |]. split; [exact Hp |]. split; [reflexivity | exact Hi].
Defined.

(** *** A flood of Pings *)

Lemma ping_flood_nests (n : nat) :
  forall (w : World) (j : nat) (callers : list Frame),
    pulls w !! j = Some (AwaitEvent :: callers) ->
    exists w',
      run (ping_flood j n) w = Some w' /\
      pulls w' !! j
      = Some (AwaitEvent :: repeat (AwaitInner VUndefined) n ++ callers).
Proof.
  induction n as [| n IH]; intros w j callers Hj.
  - exists w. split; [reflexivity | exact Hj].
  - destruct (ping_then_pong w j VUndefined 0 callers Hj) as (w2 & Hr & Hj2 & _).
    destruct (IH w2 j (AwaitInner VUndefined :: callers) Hj2) as (w' & Hr' & Hj').
    exists w'. split.
    + change (ping_flood j (S n))
        with ([NextEvent j 3 VUndefined 0; PongOk j] ++ ping_flood j n).
      rewrite run_app, Hr. exact Hr'.
    + rewrite Hj'. f_equal. f_equal.
      change (AwaitInner VUndefined :: callers)
        with ([AwaitInner VUndefined] ++ callers).
      rewrite app_assoc, <- repeat_cons. reflexivity.
Qed.

(** C9, as stated, fails: no bound holds for the depth of one pull chain
    under Ping floods of every length. *)
Lemma ping_flood_depth_unbounded :
  ~ exists bound : nat,
      forall (n : nat) (w : World),
        run (ping_flood 0 n) open_world = Some w ->
        (pull_depth 0 w <= bound)%nat.
Proof.
  intros [bound H].
  destruct (ping_flood_nests (S bound) open_world 0 [] eq_refl) as (w & Hr & Hj).
  specialize (H (S bound) w Hr). unfold pull_depth in H. rewrite Hj in H.
  rewrite app_nil_r in H. simpl in H. rewrite repeat_length in H. lia.
Qed.

(** C9, amended. The pump handles a Ping by recursion: once the Pong is
    sent, [pull] calls itself and awaits that call.  After [n] consecutive
    Pings a chain that held [1 + length callers] activations holds
    [n + 1 + length callers] of them, every added one suspended on its
    nested call. *)
Theorem ping_flood_depth (n : nat) (w : World) (j : nat) (callers : list Frame) :
  pulls w !! j = Some (AwaitEvent :: callers) ->
  exists w',
    run (ping_flood j n) w = Some w' /\
    pulls w' !! j
    = Some (AwaitEvent :: repeat (AwaitInner VUndefined) n ++ callers) /\
    pull_depth j w' = (n + 1 + length callers)%nat.
Proof.
  intros Hj. destruct (ping_flood_nests n w j callers Hj) as (w' & Hr & Hj').
  exists w'. split; [exact Hr |]. split; [exact Hj' |].
  unfold pull_depth. rewrite Hj'. simpl.
  rewrite length_app, repeat_length. lia.
Qed.

Lemma ping_flood_depth_of_five :
  pulls open_world !! 0%nat = Some [AwaitEvent] /\
  exists w',
    run (ping_flood 0 5) open_world = Some w' /\
    pull_depth 0 w' = 6%nat.
Proof.
  split; [reflexivity |].
  destruct (ping_flood_depth 5 open_world 0 [] eq_refl) as (w' & Hr & _ & Hd).
  exists w'. split; [exact Hr | exact Hd].
Defined.

(** ** The streams when [closed] settles *)

Lemma errored_world_reachable : reachable errored_world.
Proof. exists SigAbsent, errored_trace. vm_compute. reflexivity. Qed.

Lemma clean_close_world_reachable : reachable clean_close_world.
Proof. exists SigAbsent, clean_close_trace. vm_compute. reflexivity. Qed.

Lemma not_fulfilled_no_stream_close (w : World) :
  reachable w -> is_fulfilled (_closed w) = false ->
  step ClosedReaction w = None /\ stream_closes w = (0, 0)%nat.
Proof.
  intros Hw Hnf. destruct (reaction_inv_reachable w Hw) as (Hc & Hwc & Hran).
  unfold step. rewrite Hnf, andb_false_r. simpl. split; [reflexivity |].
  unfold stream_closes. rewrite Hc, Hwc.
  destruct (closedReactionRan w); [| reflexivity].
  rewrite Hran in Hnf by reflexivity. discriminate.
Qed.

(** C10, as stated, fails when [closed] is rejected by an inbound Error
    event: the controller is errored, never closed, and the writable stream
    is never closed, whatever happens afterwards. *)
Lemma error_event_closes_no_stream :
  run errored_trace (construct SigAbsent) = Some errored_world /\
  _closed errored_world = Some (Rejected (VError (VString [98%N]))) /\
  forall (tr : list Input) (w : World),
    run tr errored_world = Some w ->
    step ClosedReaction w = None /\ stream_closes w = (0, 0)%nat.
Proof.
  split; [vm_compute; reflexivity |]. split; [reflexivity |].
  intros tr w Hr. apply not_fulfilled_no_stream_close.
  - eapply reachable_extend; [apply errored_world_reachable | exact Hr].
  - assert (_closed w = Some (Rejected (VError (VString [98%N])))) as ->
      by (apply (holds_run Closed _ tr errored_world w Hr); reflexivity).
    reflexivity.
Qed.

(** C10, amended. When [closed] is fulfilled (clean close, peer close,
    forced timeout) the streams exist and the reaction installed by [start]
    is due: unless it has already run, it is enabled, and it closes the
    inbound controller and calls [writableStreamClose] on the writable
    stream, once.  When [closed] is rejected or still pending the reaction
    cannot run, and neither stream has been closed. *)
Theorem closed_reaction_on_fulfilment (w : World) :
  reachable w ->
  (is_fulfilled (_closed w) = true ->
   phase w = Open /\
   ((closedReactionRan w = true /\ stream_closes w = (1, 1)%nat) \/
    (closedReactionRan w = false /\ stream_closes w = (0, 0)%nat /\
     exists w',
       step ClosedReaction w = Some w' /\
       log w' = WritableStreamClose :: ControllerClose :: log w /\
       stream_closes w' = (1, 1)%nat /\
       closedReactionRan w' = true /\
       step ClosedReaction w' = None))) /\
  (is_fulfilled (_closed w) = false ->
   step ClosedReaction w = None /\ stream_closes w = (0, 0)%nat).
Proof.
  intros Hw. split; [| apply not_fulfilled_no_stream_close; exact Hw].
  intros Hf.
  destruct (reaction_inv_reachable w Hw) as (Hc & Hwc & Hran).
  pose proof (connect_inv_reachable w Hw) as Hconn. unfold connect_inv in Hconn.
  assert (phase w = Open) as Hopen.
  { destruct (_connection w) as [[v | e] |].
    - exact Hconn.
    - destruct Hconn as [Hcl _]. rewrite Hcl in Hf. discriminate.
    - destruct Hconn as [Hcl _]. rewrite Hcl in Hf. discriminate. }
  split; [exact Hopen |]. unfold stream_closes. rewrite Hc, Hwc.
  destruct (closedReactionRan w) eqn:Hr; [left; split; reflexivity |].
  right. split; [reflexivity |]. split; [reflexivity |].
  exists (exec closed_reaction w).
  split; [unfold step; rewrite Hopen, Hf, Hr; reflexivity |].
  destruct w; simpl in *. unfold closed_reaction; unfold_monad; cbn.
  rewrite Hc, Hwc. repeat split.
  subst. rewrite Hf. reflexivity.
Qed.

Lemma closed_reaction_after_clean_close :
  _closed clean_close_world = Some (Resolved VUndefined) /\
  exists w',
    step ClosedReaction clean_close_world = Some w' /\
    log w' = WritableStreamClose :: ControllerClose :: log clean_close_world.
Proof.
  split; [reflexivity |].
  destruct (closed_reaction_on_fulfilment clean_close_world
              clean_close_world_reachable) as [Hf _].
  destruct (Hf eq_refl) as (_ & [[Hran _] | (_ & _ & w' & Hs & Hlog & _)]).
  - vm_compute in Hran. discriminate.
  - exists w'. split; [exact Hs | exact Hlog].
Defined.

(** ** Closing or aborting while connecting *)


Lemma creating_pending (w : World) :
  reachable w -> phase w = Creating -> _connection w = None /\ _closed w = None.
Proof.
  intros Hw Hp. apply connect_inv_reachable in Hw. unfold connect_inv in Hw.
  rewrite Hp in Hw. destruct (_connection w) as [[v | e] |].
  - discriminate.
  - destruct Hw; discriminate.
  - destruct Hw as [Hcl _]. split; [reflexivity | exact Hcl].
Qed.

Lemma create_ok_early (w : World) (rid : Z) (p e : option USVString) :
  phase w = Creating -> _earlyClose w = true ->
  _connection w = None -> _closed w = None ->
  exists w1, step (CreateOk rid p e) w = Some w1 /\ early_closing rid w1.
Proof.
  intros Hp He Hc Hcl. unfold step. rewrite Hp. eexists. split; [reflexivity |].
  destruct w as [wrid conn cl sent early sig lis ph crr csr ops tim pl lg].
  simpl in *; subst. unfold early_closing, create_fulfilled.
  unfold_monad. destruct sig; cbn; repeat split.
Qed.

Lemma early_close_ok (w : World) (rid : Z) :
  early_closing rid w ->
  exists w1, step EarlyCloseOk w = Some w1 /\ draining rid w1.
Proof.
  intros (Hp & Hc & Hcl). unfold step. rewrite Hp. eexists.
  split; [reflexivity |].
  destruct w; simpl in *; subst. unfold draining, early_close_fulfilled.
  unfold_monad. cbn. repeat split.
Qed.

Lemma early_close_err (w : World) (rid : Z) :
  early_closing rid w ->
  exists w1,
    step EarlyCloseErr w = Some w1 /\ both_rejected closed_while_connecting w1.
Proof.
  intros (Hp & Hc & Hcl). unfold step. rewrite Hp. eexists.
  split; [reflexivity |].
  destruct w; simpl in *; subst.
  unfold both_rejected, early_close_rejected, reject_both, reject.
  unfold_monad. cbn. split; reflexivity.
Qed.

Lemma drain_low_events (ks : list Z) :
  forall (w : World) (rid : Z),
    draining rid w -> Forall (fun k => k <= 6) ks ->
    exists w1, run (map DrainEvent ks) w = Some w1 /\ draining rid w1.
Proof.
  induction ks as [| k ks IH]; intros w rid Hd Hks.
  - exists w. split; [reflexivity | exact Hd].
  - inversion Hks as [| k' ks' Hk Hks']; subst.
    assert (exists w1, step (DrainEvent k) w = Some w1 /\ draining rid w1)
      as (w1 & Hs & Hd1).
    { destruct Hd as (Hp & Hc & Hcl). unfold step. rewrite Hp. eexists.
      split; [reflexivity |].
      destruct w; simpl in *; subst. unfold draining, drain_event.
      assert ((6 <? k) = false) as -> by lia.
      unfold_monad. cbn. repeat split. }
    destruct (IH w1 rid Hd1 Hks') as (w2 & Hr & Hd2).
    exists w2. split; [| exact Hd2].
    cbn [map run]. rewrite Hs. exact Hr.
Qed.

Lemma drain_close_event (w : World) (rid k : Z) :
  draining rid w -> 6 < k ->
  exists w1,
    run [DrainEvent k; DrainThen] w = Some w1 /\
    both_rejected closed_while_connecting w1.
Proof.
  intros (Hp & Hc & Hcl) Hk.
  set (w1 := exec (drain_event rid k) w).
  assert (phase w1 = DrainDone /\ _connection w1 = None /\ _closed w1 = None)
    as (Hp1 & Hc1 & Hcl1).
  { subst w1. destruct w; simpl in *; subst. unfold drain_event.
    assert ((6 <? k) = true) as -> by lia.
    unfold_monad. cbn. repeat split. }
  exists (exec drain_then w1). split.
  - unfold run. unfold step at 1. rewrite Hp. fold w1.
    unfold step. rewrite Hp1. reflexivity.
  - destruct w1; simpl in *; subst.
    unfold both_rejected, drain_then, reject_both, reject. unfold_monad. cbn.
    split; reflexivity.
Qed.

Lemma construct_aborted (r : Value) :
  both_rejected r (construct (SigAborted r)) /\
  count_where is_create (log (construct (SigAborted r))) = 0%nat.
Proof. split; [split |]; reflexivity. Qed.

Lemma create_interrupted (w : World) (r err : Value) :
  phase w = Creating -> signal w = SigAborted r ->
  _connection w = None -> _closed w = None ->
  exists w', step (CreateErr true err) w = Some w' /\ both_rejected r w'.
Proof.
  intros Hp Hs Hc Hcl. unfold step. rewrite Hp. eexists. split; [reflexivity |].
  destruct w; simpl in *; subst.
  unfold both_rejected, create_rejected, reject_both, reject. unfold_monad. cbn.
  split; reflexivity.
Qed.


Lemma closing_early_world_reachable : reachable closing_early_world.
Proof.
  exists SigAbsent, [CallClose default_close_info]. vm_compute. reflexivity.
Qed.


(** * Further properties *)

(** ** The shape of reachable worlds *)

Lemma invariant_with_connect (Q : World -> Prop) :
  (forall i w w', step i w = Some w' -> connect_inv w -> Q w -> Q w') ->
  (forall sig, Q (construct sig)) ->
  forall w, reachable w -> Q w.
Proof.
  intros Hstep Hinit w (sig & tr & Hr).
  assert (connect_inv w /\ Q w) as [_ H]; [| exact H].
  eapply (invariant_run (fun w => connect_inv w /\ Q w)); [| exact Hr |].
  - intros i w0 w1 Hs [Hc Hq].
    split; [eapply connect_inv_step; eauto | eapply Hstep; eauto].
  - split; [| apply Hinit].
    destruct sig; unfold connect_inv; simpl; repeat split.
Qed.

Lemma with_connect_sink_close (Q : World -> Prop) (r : option WebSocketCloseInfo)
  (w : World) :
  (forall closeInfo w0, connect_inv w0 -> Q w0 -> Q (exec (close closeInfo) w0)) ->
  connect_inv w -> Q w -> Q (exec (sink_close r) w).
Proof.
  intros Hclose Hc Hq.
  assert (preserves (fun w => connect_inv w /\ Q w) (sink_close r)) as Hp.
  { assert (forall ci, preserves (fun w => connect_inv w /\ Q w) (close ci)) as Hci.
    { intros ci w0 [Hc0 Hq0].
      split; [apply connect_inv_close; exact Hc0 | apply Hclose; assumption]. }
    unfold sink_close. apply preserves_bind; [apply Hci |].
    intros []; [apply preserves_ret | apply Hci]. }
  apply (Hp w). split; assumption.
Qed.

Ltac use_closed_phase :=
  repeat match goal with
         | H : is_open ?p = false |- context [is_open ?p] => rewrite H
         end.

Ltac with_connect_crush :=
  unfold connect_inv in *; open_world;
  match goal with
  | H : match ?c with Some _ => _ | None => _ end |- _ => destruct c as [[]|]
  end;
  finish; use_closed_phase; break_match_goal; finish; use_closed_phase;
  repeat match goal with
         | H : exists _, _ |- _ => destruct H
         | H : true = true -> _ |- _ => specialize (H eq_refl)
         | H : ?a = ?a -> _ |- _ => specialize (H eq_refl)
         end;
  finish; repeat split; finish; eauto.

Lemma early_inv_reachable (w : World) : reachable w -> early_inv w.
Proof.
  apply invariant_with_connect.
  - intros i w0 w1 Hs Hc H.
    destruct i; step_inv Hs;
      try solve [unfold early_inv in *; with_connect_crush].
    apply with_connect_sink_close; try assumption.
    clear. intros closeInfo w Hc H. unfold early_inv in *. with_connect_crush.
  - intros sig. destruct sig; unfold early_inv; simpl; discriminate.
Qed.

Lemma rid_inv_reachable (w : World) : reachable w -> rid_inv w.
Proof.
  apply invariant_with_connect.
  - intros i w0 w1 Hs Hc H.
    destruct i; step_inv Hs;
      try solve [unfold rid_inv in *; with_connect_crush].
    apply with_connect_sink_close; try assumption.
    clear. intros closeInfo w Hc H. unfold rid_inv in *. with_connect_crush.
  - intros sig. destruct sig; reflexivity.
Qed.

Lemma idle_inv_reachable (w : World) : reachable w -> idle_inv w.
Proof.
  apply invariant_with_connect.
  - intros i w0 w1 Hs Hc H.
    destruct i; step_inv Hs;
      try solve [unfold idle_inv in *; with_connect_crush].
    apply with_connect_sink_close; try assumption.
    clear. intros closeInfo w Hc H. unfold idle_inv in *. with_connect_crush.
  - intros sig. destruct sig; unfold idle_inv; simpl; auto.
Qed.

(** ** The stream hooks *)

Lemma close_default_normal (w : World) :
  fst (close default_close_info w) = Normal.
Proof.
  unfold close; simpl. unfold_monad.
  destruct (is_pending (_connection w)); simpl; [reflexivity |].
  destruct (is_pending (_closed w)); reflexivity.
Qed.

(** The hook does what one call of [close] does. *)
Lemma sink_close_as_close (r : option WebSocketCloseInfo) (w : World) :
  sink_close r w = close (hook_close_info r) w \/
  (exists e, fst (close (hook_close_info r) w) = Throw e) /\
  sink_close r w = close default_close_info w.
Proof.
  unfold sink_close. fold (hook_close_info r). unfold bind.
  destruct (close (hook_close_info r) w) as [c w1] eqn:Hc.
  destruct c as [| e].
  - left. reflexivity.
  - right. split; [exists e; reflexivity |].
    pose proof (close_throw_unchanged (hook_close_info r) w e) as Hu.
    rewrite Hc in Hu. specialize (Hu eq_refl). injection Hu as ->. reflexivity.
Qed.

Lemma sink_close_exec (r : option WebSocketCloseInfo) (w : World) :
  exists closeInfo, exec (sink_close r) w = exec (close closeInfo) w.
Proof.
  destruct (sink_close_as_close r w) as [H | [_ H]]; unfold exec; rewrite H;
    eauto.
Qed.

Lemma close_noop_when_settled (closeInfo : WebSocketCloseInfo) (w : World) :
  _connection w <> None -> _closed w <> None -> exec (close closeInfo) w = w.
Proof.
  intros Hconn Hcl. unfold close.
  destruct (truthy_code (code closeInfo) && negb (code_allowed (code closeInfo)));
    [reflexivity |].
  destruct (truthy_reason (reason closeInfo)
            && (123 <? reason_byte_length closeInfo)%nat); [reflexivity |].
  unfold_monad. destruct (_connection w); [| congruence].
  simpl. destruct (_closed w); [reflexivity | congruence].
Qed.

(** ** Invariants over the shape of reachable worlds *)

Lemma base_inv_reachable (w : World) : reachable w -> base_inv w.
Proof.
  intros Hw. split; [| split; [| split]].
  - apply connect_inv_reachable, Hw.
  - apply idle_inv_reachable, Hw.
  - apply rid_inv_reachable, Hw.
  - apply early_inv_reachable, Hw.
Qed.

Lemma reachable_step (i : Input) (w w' : World) :
  reachable w -> step i w = Some w' -> reachable w'.
Proof.
  intros Hw Hs. apply (reachable_extend w w' [i] Hw). simpl. rewrite Hs.
  reflexivity.
Qed.

Lemma construct_reachable (sig : SignalState) : reachable (construct sig).
Proof. exists sig, []. reflexivity. Qed.

Lemma invariant_with_base (Q : World -> Prop) :
  (forall i w w', step i w = Some w' -> base_inv w -> Q w -> Q w') ->
  (forall sig, Q (construct sig)) ->
  forall w, reachable w -> Q w.
Proof.
  intros Hstep Hinit w (sig & tr & Hr).
  assert (reachable w /\ Q w) as [_ H]; [| exact H].
  eapply (invariant_run (fun w => reachable w /\ Q w)); [| exact Hr |].
  - intros i w0 w1 Hs [Hw0 Hq].
    split; [eapply reachable_step; eauto |].
    eapply Hstep; eauto. apply base_inv_reachable, Hw0.
  - split; [apply construct_reachable | apply Hinit].
Qed.

Ltac use_reflexive_premises :=
  repeat match goal with
         | H : exists _, _ |- _ => destruct H
         | H : ?a = ?a -> _ |- _ => specialize (H eq_refl)
         end.

Ltac base_prepare :=
  unfold base_inv, connect_inv, idle_inv, rid_inv, early_inv,
    handle_releases in *;
  open_world;
  repeat match goal with
         | H : _ /\ _ |- _ => destruct H
         end;
  match goal with
  | H : match ?c with Some _ => _ | None => _ end |- _ => destruct c as [[]|]
  end;
  finish; use_closed_phase; break_match_goal; finish; use_closed_phase;
  use_reflexive_premises; finish.

Ltac with_base_crush :=
  base_prepare; repeat split; finish; use_reflexive_premises; finish; eauto.

Ltac forall_crush :=
  base_prepare;
  repeat (constructor; [reflexivity |]);
  finish.

(** The step case of an invariant [inv] of reachable worlds: [close]
    first, the stream hook through it, every other input by computation. *)
Ltac base_step_with inv crush :=
  let i := fresh "i" in
  let w0 := fresh "w" in
  let w1 := fresh "w" in
  let Hs := fresh "Hs" in
  let Hb := fresh "Hb" in
  let H := fresh "H" in
  let Hclose := fresh "Hclose" in
  let ci := fresh "ci" in
  intros i w0 w1 Hs Hb H;
  assert (forall ci, inv (exec (close ci) w0)) as Hclose
    by (intros ci; clear Hs w1; unfold inv in *; crush);
  destruct i; step_inv Hs;
  try solve [apply Hclose];
  try solve [match goal with
             | |- inv (exec (sink_close ?r) _) =>
                 destruct (sink_close_exec r w0) as [ci ->]; apply Hclose
             end];
  clear Hclose; unfold inv in *; crush.

Ltac base_step inv := base_step_with inv with_base_crush.

Lemma release_inv_reachable (w : World) : reachable w -> release_inv w.
Proof.
  apply invariant_with_base; [base_step release_inv |].
  intros sig. destruct sig; unfold release_inv; reflexivity.
Qed.

Lemma settled_release_inv_reachable (w : World) :
  reachable w -> settled_release_inv w.
Proof.
  apply invariant_with_base; [base_step settled_release_inv |].
  intros sig H. destruct sig; vm_compute in H; discriminate.
Qed.

Lemma listener_inv_reachable (w : World) : reachable w -> listener_inv w.
Proof.
  apply invariant_with_base; [base_step listener_inv |].
  intros sig. destruct sig; split; intros H; vm_compute in H |- *;
    try discriminate; auto.
Qed.

Lemma rids_defined_reachable (w : World) : reachable w -> rids_defined w.
Proof.
  apply invariant_with_base; [base_step_with rids_defined forall_crush |].
  intros sig. destruct sig; repeat constructor.
Qed.

(** ** What goes out in a close frame *)

Lemma close_checked_frame_ok (closeInfo : WebSocketCloseInfo) (rid : option Z) :
  truthy_code (code closeInfo) && negb (code_allowed (code closeInfo)) = false ->
  truthy_reason (reason closeInfo) && (123 <? reason_byte_length closeInfo)%nat
  = false ->
  close_frame_ok
    (OpClose rid
       (if truthy_reason (reason closeInfo) && is_undefined (code closeInfo)
        then Some 1000 else code closeInfo)
       (Some (reason closeInfo))) = true.
Proof.
  destruct closeInfo as [c r]. unfold reason_byte_length. simpl. intros Hc Hr.
  apply andb_true_intro. split.
  - destruct r as [| x r]; [reflexivity |]. simpl in Hr.
    apply Nat.leb_le. apply Nat.ltb_ge in Hr. exact Hr.
  - destruct c as [z |]; simpl in *.
    + rewrite andb_comm. simpl.
      destruct (z =? 0) eqn:Hz; simpl in *; [reflexivity |].
      apply negb_false_iff in Hc. exact Hc.
    + destruct r; reflexivity.
Qed.

Lemma close_frames_ok_close (closeInfo : WebSocketCloseInfo) (w : World) :
  close_frames_ok w -> close_frames_ok (exec (close closeInfo) w).
Proof.
  intros H. unfold close_frames_ok, close in *.
  destruct (truthy_code (code closeInfo) && negb (code_allowed (code closeInfo)))
    eqn:Hc; [exact H |].
  destruct (truthy_reason (reason closeInfo)
            && (123 <? reason_byte_length closeInfo)%nat) eqn:Hr; [exact H |].
  destruct w as [wrid conn cl sent early sig lis ph crr csr ops tim pl lg].
  unfold_monad; simpl in *.
  destruct conn as [s |]; simpl; [| exact H].
  destruct cl as [s' |]; simpl; [exact H |].
  constructor; [| exact H].
  apply close_checked_frame_ok; assumption.
Qed.

Lemma close_frames_ok_reachable (w : World) : reachable w -> close_frames_ok w.
Proof.
  apply invariant_with_base.
  - intros i w0 w1 Hs Hb H.
    destruct i; step_inv Hs;
      try solve [apply close_frames_ok_close; exact H];
      try solve [match goal with
                 | |- close_frames_ok (exec (sink_close ?r) _) =>
                     destruct (sink_close_exec r w0) as [ci ->];
                     apply close_frames_ok_close; exact H
                 end];
      unfold close_frames_ok in *; forall_crush.
  - intros sig. destruct sig; repeat constructor.
Qed.

(** ** Counting the connect attempt *)

Ltac plain_crush :=
  open_world; finish; break_match_goal; finish.

Lemma connect_calls_close (n m : nat) (closeInfo : WebSocketCloseInfo) (w : World) :
  connect_calls n m w -> connect_calls n m (exec (close closeInfo) w).
Proof. intros H. unfold connect_calls in *. plain_crush. Qed.

Lemma connect_calls_step (n m : nat) (i : Input) (w w' : World) :
  step i w = Some w' -> connect_calls n m w -> connect_calls n m w'.
Proof.
  intros Hs H.
  destruct i; step_inv Hs;
    try solve [apply connect_calls_close; exact H];
    try solve [match goal with
               | |- connect_calls _ _ (exec (sink_close ?r) ?w0) =>
                   destruct (sink_close_exec r w0) as [ci ->];
                   apply connect_calls_close; exact H
               end];
    unfold connect_calls in *; plain_crush.
Qed.

(** ** Inputs that leave [closed] alone *)

Lemma close_keeps_closed (closeInfo : WebSocketCloseInfo) (w : World) :
  _closed (exec (close closeInfo) w) = _closed w.
Proof. plain_crush. Qed.

Lemma quiet_step (i : Input) (w w' : World) :
  is_quiet i = true -> step i w = Some w' -> _closed w' = _closed w.
Proof.
  intros Hq Hs.
  destruct i; try discriminate Hq; step_inv Hs;
    try solve [apply close_keeps_closed];
    try solve [match goal with
               | |- _closed (exec (sink_close ?r) ?w0) = _ =>
                   destruct (sink_close_exec r w0) as [ci ->];
                   apply close_keeps_closed
               end];
    plain_crush.
Qed.

(** ** Worlds with nothing left to do *)

Lemma abandoned_close (closeInfo : WebSocketCloseInfo) (w : World) :
  abandoned w -> abandoned (exec (close closeInfo) w).
Proof. intros H. unfold abandoned in *. plain_crush; repeat split. Qed.

Lemma abandoned_step (i : Input) (w w' : World) :
  step i w = Some w' -> abandoned w -> abandoned w'.
Proof.
  intros Hs H.
  destruct i; step_inv Hs;
    try solve [apply abandoned_close; exact H];
    try solve [match goal with
               | |- abandoned (exec (sink_close ?r) ?w0) =>
                   destruct (sink_close_exec r w0) as [ci ->];
                   apply abandoned_close; exact H
               end];
    unfold abandoned in *; plain_crush; repeat split.
Qed.

Lemma abandoned_run (tr : list Input) (w w' : World) :
  run tr w = Some w' -> abandoned w -> abandoned w'.
Proof. apply (invariant_run abandoned abandoned_step). Qed.

(** ** The early-close flag stays *)

Lemma early_close_kept_by_close (closeInfo : WebSocketCloseInfo) (w : World) :
  _earlyClose w = true -> _earlyClose (exec (close closeInfo) w) = true.
Proof. intros H. plain_crush. Qed.

Lemma early_close_kept (i : Input) (w w' : World) :
  step i w = Some w' -> _earlyClose w = true -> _earlyClose w' = true.
Proof.
  intros Hs H.
  destruct i; step_inv Hs;
    try solve [apply early_close_kept_by_close; exact H];
    try solve [match goal with
               | |- _earlyClose (exec (sink_close ?r) ?w0) = _ =>
                   destruct (sink_close_exec r w0) as [ci ->];
                   apply early_close_kept_by_close; exact H
               end];
    plain_crush.
Qed.

(** * Settlement of the deferreds *)

Lemma settle_path_close (closeInfo : WebSocketCloseInfo) (w : World) (d : Which) :
  deferred d (exec (close closeInfo) w) = deferred d w.
Proof. destruct d; plain_crush. Qed.

Lemma settle_path_event (w : World) (j : nat) (kind : Z) (value : Value)
  (now : Z) (callers : list Frame) (d : Which) :
  deferred d (exec (on_event true j kind value now callers) w)
  = first_wins (deferred d w) (settlement_of (NextEvent j kind value now) w d).
Proof.
  destruct w as [wrid conn cl sent early sig lis ph crr csr ops tim pl lg].
  unfold on_event, after_switch, set_chain, resolve, reject, settlement_of,
    terminal_settlement, first_wins.
  unfold_monad.
  destruct kind as [| p | p]; [| do 3 (try (destruct p as [p | p |])) |];
    destruct d, conn, cl, sent as [[] |]; reflexivity.
Qed.

(** Every step leaves a deferred as it is, or settles it as the table says
    when the deferred is pending. *)
Lemma settle_path_step (i : Input) (w w' : World) (d : Which) :
  step i w = Some w' ->
  deferred d w' = first_wins (deferred d w) (settlement_of i w d).
Proof.
  intros Hs.
  destruct i; try solve [step_inv Hs; apply settle_path_event];
    step_inv Hs;
    try solve [rewrite settle_path_close; unfold first_wins;
               destruct d, (deferred _ w); reflexivity];
    try solve [match goal with
               | |- context [exec (sink_close ?r) ?w0] =>
                   destruct (sink_close_exec r w0) as [ci ->];
                   rewrite settle_path_close; unfold first_wins;
                   destruct d, (deferred _ w0); reflexivity
               end];
    unfold first_wins, settlement_of; destruct d; open_world; finish;
    break_match_goal; finish.
Qed.

Lemma settle_path_construct (sig : SignalState) (d : Which) :
  deferred d (construct sig) = initial_settlement sig d.
Proof. destruct sig, d; reflexivity. Qed.

Lemma abandoned_stays_pending (w : World) :
  reachable w -> abandoned w -> stays_pending w.
Proof.
  intros Hw Ha tr w' Hr.
  destruct (abandoned_run tr w w' Hr Ha) as (_ & Hconn & Hcl & _).
  pose proof (one_shot_reachable w' (reachable_extend w w' tr Hw Hr)) as Hone.
  destruct (Hone Connection) as [Hs1 _]. destruct (Hone Closed) as [Hs2 _].
  cbn [deferred] in Hs1, Hs2. rewrite Hconn in Hs1. rewrite Hcl in Hs2.
  auto.
Qed.




(** * Properties of the rest of the class *)

(** ** The stream hooks [close], [abort] and [cancel] *)

Lemma sink_close_normal (r : option WebSocketCloseInfo) (w : World) :
  fst (sink_close r w) = Normal.
Proof.
  unfold sink_close, bind.
  match goal with
  | |- context [close ?info w] => destruct (close info w) as [[| e] w1]
  end; [reflexivity | apply close_default_normal].
Qed.



(** ** The connect attempt *)

(** X2. An instance asks for its cancel handle once and starts at most one
    connect attempt: exactly one, unless the signal was already aborted at
    construction, in which case it starts none. *)
Theorem one_connect_attempt (sig : SignalState) (tr : list Input) (w : World) :
  run tr (construct sig) = Some w ->
  count_where is_check_permission (log w) = 1%nat /\
  count_where is_create (log w)
  = match sig with
    | SigAborted _ => 0%nat
    | _ => 1%nat
    end.
Proof.
  intros Hr.
  apply (invariant_run (connect_calls 1 _) (connect_calls_step 1 _) tr _ w Hr).
  destruct sig; split; reflexivity.
Qed.

Lemma one_connect_attempt_example :
  run racing_paths (construct SigAbsent) = Some racing_world /\
  count_where is_create (log racing_world) = 1%nat.
Proof.
  assert (run racing_paths (construct SigAbsent) = Some racing_world) as Hr
    by (vm_compute; reflexivity).
  split; [exact Hr |].
  apply (one_connect_attempt SigAbsent racing_paths racing_world Hr).
Defined.

(** ** The handle *)

(** X3. [_rid] is set exactly when the streams are built, and every
    operation on the connection that the instance ever issues
    ([op_ws_close], [op_ws_next_event], [op_ws_send], [core.tryClose])
    is given a rid, never [undefined]. *)
Theorem operations_name_the_rid (w : World) :
  reachable w ->
  (phase w = Open <-> exists rid, _rid w = Some rid) /\
  forall e, In e (log w) -> effect_rid e <> Some None.
Proof.
  intros Hw. split.
  - pose proof (rid_inv_reachable w Hw) as Hr. unfold rid_inv in Hr.
    destruct (phase w); simpl in Hr; split; intros H;
      try discriminate; try reflexivity; try exact Hr;
      destruct H as [x H]; congruence.
  - intros e He. pose proof (rids_defined_reachable w Hw) as Hd.
    unfold rids_defined in Hd. rewrite Forall_forall in Hd.
    apply list_elem_of_In in He. specialize (Hd e He). unfold rid_defined in Hd.
    intros Hn. rewrite Hn in Hd. discriminate.
Qed.

Lemma operations_name_the_rid_example :
  reachable racing_world /\
  _rid racing_world = Some 7 /\
  (forall e, In e (log racing_world) -> effect_rid e <> Some None).
Proof.
  destruct (operations_name_the_rid racing_world racing_world_reachable)
    as [_ H].
  split; [exact racing_world_reachable |]. split; [reflexivity | exact H].
Defined.

Lemma run_keeps_early_close (tr : list Input) (w w' : World) :
  run tr w = Some w' -> _earlyClose w = true -> _earlyClose w' = true.
Proof.
  intros Hr H.
  apply (invariant_run (fun w => _earlyClose w = true)
           (fun i w0 w1 Hs => early_close_kept i w0 w1 Hs) tr w w' Hr H).
Qed.

(** X4. Once [close] has been accepted while connecting, the streams are
    never built: in everything that follows, [connection] is never
    resolved, [_rid] is never set and no pull exists. *)
Theorem early_close_never_opens (w : World) (tr : list Input) (w' : World) :
  reachable w -> _earlyClose w = true -> run tr w = Some w' ->
  phase w' <> Open /\
  (forall v, _connection w' <> Some (Resolved v)) /\
  _rid w' = None /\ pulls w' = [].
Proof.
  intros Hw He Hr.
  pose proof (reachable_extend w w' tr Hw Hr) as Hw'.
  pose proof (run_keeps_early_close tr w w' Hr He) as He'.
  destruct (base_inv_reachable w' Hw') as (Hc & Hi & Hrid & Hearly).
  specialize (Hearly He'). specialize (Hi Hearly).
  unfold rid_inv in Hrid. rewrite Hearly in Hrid.
  split; [intros Ho; rewrite Ho in Hearly; discriminate |].
  split; [| split; [exact Hrid | apply Hi]].
  intros v Hv. unfold connect_inv in Hc. rewrite Hv in Hc.
  rewrite Hc in Hearly. discriminate.
Qed.

Lemma early_close_never_opens_example :
  reachable closing_early_world /\
  _earlyClose closing_early_world = true /\
  run [CreateOk 7 None None; EarlyCloseOk] closing_early_world
  = Some draining_world /\
  phase draining_world <> Open /\ _rid draining_world = None.
Proof.
  assert (run [CreateOk 7 None None; EarlyCloseOk] closing_early_world
          = Some draining_world) as Hr by (vm_compute; reflexivity).
  destruct (early_close_never_opens closing_early_world _ draining_world
              closing_early_world_reachable eq_refl Hr) as (Hp & _ & Hrid & _).
  split; [exact closing_early_world_reachable |]. split; [reflexivity |].
  split; [exact Hr |]. split; [exact Hp | exact Hrid].
Defined.

(** X5. On an instance whose streams are built and whose rid is truthy,
    a settled [closed] means that [core.tryClose] was called on the
    handle, whichever path settled it. *)
Theorem handle_released_on_settlement (w : World) :
  reachable w -> phase w = Open -> _closed w <> None ->
  truthy_rid (_rid w) = true ->
  (1 <= handle_releases w)%nat.
Proof.
  intros Hw Ho Hcl Hrid.
  pose proof (settled_release_inv_reachable w Hw) as H.
  unfold settled_release_inv in H. rewrite Ho in H.
  specialize (H eq_refl).
  destruct (_closed w); [| congruence].
  specialize (H eq_refl Hrid). lia.
Qed.

Lemma handle_released_on_settlement_example :
  reachable errored_world /\ _closed errored_world <> None /\
  (1 <= handle_releases errored_world)%nat.
Proof.
  assert (_closed errored_world <> None) as Hcl by (vm_compute; discriminate).
  split; [exact errored_world_reachable |]. split; [exact Hcl |].
  apply (handle_released_on_settlement errored_world errored_world_reachable
           eq_refl Hcl eq_refl).
Defined.

(** X6. [core.tryClose] is never called on the handle of an instance whose
    streams were not built; so in the early-close branch, which obtains a
    rid from the connect and closes it with a close frame only, the handle
    is never released. *)
Theorem handle_kept_unless_open (w : World) :
  reachable w ->
  (phase w <> Open -> handle_releases w = 0%nat) /\
  (_earlyClose w = true ->
   forall tr w', run tr w = Some w' -> handle_releases w' = 0%nat).
Proof.
  intros Hw. split.
  - intros Hn. apply (release_inv_reachable w Hw).
    destruct (phase w); try reflexivity. congruence.
  - intros He tr w' Hr.
    pose proof (reachable_extend w w' tr Hw Hr) as Hw'.
    apply (release_inv_reachable w' Hw').
    apply (early_inv_reachable w' Hw').
    exact (run_keeps_early_close tr w w' Hr He).
Qed.

Lemma handle_kept_after_early_close :
  reachable early_close_world /\
  phase early_close_world <> Open /\
  handle_releases early_close_world = 0%nat.
Proof.
  assert (reachable early_close_world) as Hw
    by (exists SigAbsent, early_close_trace; vm_compute; reflexivity).
  assert (phase early_close_world <> Open) as Hp by (vm_compute; discriminate).
  split; [exact Hw |]. split; [exact Hp |].
  apply (handle_kept_unless_open early_close_world Hw). exact Hp.
Defined.

(** ** Close frames *)

(** X7. Every close frame the instance sends stays within what [close]
    checks: the early-close frame carries neither code nor reason; every
    other carries a reason of at most 123 bytes of UTF-8, a code that is
    0, 1000 or in [3000, 5000) when there is one, and no code only when
    the reason is empty. *)
Theorem close_frames_within_limits (w : World) :
  reachable w ->
  forall rid c r,
    In (OpClose rid c r) (log w) ->
    match r with
    | None => c = None
    | Some s =>
        (TypedArrayPrototypeGetByteLength (TextEncoder_encode s) <= 123)%nat /\
        (c = None -> s = []) /\
        (forall z, c = Some z -> z = 0 \/ z = 1000 \/ 3000 <= z < 5000)
    end.
Proof.
  intros Hw rid c r Hin.
  pose proof (close_frames_ok_reachable w Hw) as H.
  unfold close_frames_ok in H. rewrite Forall_forall in H.
  apply list_elem_of_In in Hin. specialize (H _ Hin). simpl in H.
  destruct r as [s |].
  - apply andb_prop in H. destruct H as [Hlen Hcode].
    split; [apply Nat.leb_le; exact Hlen |].
    split.
    + intros ->. simpl in Hcode. destruct s; [reflexivity | discriminate].
    + intros z ->. simpl in Hcode. lia.
  - destruct c; [discriminate | reflexivity].
Qed.

Lemma close_frames_within_limits_example :
  reachable close_sent_world /\
  In (OpClose (Some 7) None (Some [])) (log close_sent_world) /\
  (TypedArrayPrototypeGetByteLength (TextEncoder_encode []) <= 123)%nat.
Proof.
  assert (reachable close_sent_world) as Hw
    by (exists SigAbsent, close_sent_trace; vm_compute; reflexivity).
  assert (In (OpClose (Some 7) None (Some [])) (log close_sent_world)) as Hin
    by (vm_compute; auto).
  split; [exact Hw |]. split; [exact Hin |].
  apply (close_frames_within_limits close_sent_world Hw _ _ _ Hin).
Defined.

(** ** What settles [closed] *)

(** X8. [closed] is left as it is by every input other than a connect
    continuation, a delivered event, the resumed timeout check and a
    failed close operation: neither a timer firing at whatever time, nor a
    call of [close] or of a stream hook, nor a new pull, nor a failing
    [op_ws_next_event] or [op_ws_send] of the pump settles it.  In
    particular the 5000 ms limit takes effect only when an event is
    delivered. *)
Theorem closed_settles_only_on_events (tr : list Input) (w w' : World) :
  Forall (fun i => is_quiet i = true) tr ->
  run tr w = Some w' ->
  _closed w' = _closed w.
Proof.
  revert w. induction tr as [| i tr IH]; intros w Hq Hr.
  - injection Hr as <-. reflexivity.
  - inversion Hq as [| i' tr' Hi Htr]; subst.
    cbn [run] in Hr. destruct (step i w) as [w1 |] eqn:Hs; [| discriminate].
    rewrite (IH w1 Htr Hr). apply (quiet_step i w w1 Hi Hs).
Qed.

Lemma closed_stays_pending_without_events :
  Forall (fun i => is_quiet i = true) quiet_trace /\
  exists w',
    run quiet_trace open_world = Some w' /\
    _closeSent w' = Some (Resolved (VNumber 1000)) /\
    _closed w' = None.
Proof.
  assert (Forall (fun i => is_quiet i = true) quiet_trace) as Hq
    by (repeat constructor).
  split; [exact Hq |].
  eexists. split; [vm_compute; reflexivity |]. split; [reflexivity |].
  apply (closed_settles_only_on_events quiet_trace open_world _ Hq).
  vm_compute. reflexivity.
Defined.

(** ** The abort signal *)

(** X9. Once the connect attempt has succeeded, a firing abort signal
    calls nothing and settles nothing: only the state of the signal
    changes. *)
Theorem abort_after_connect_is_inert (w w' : World) (r : Value) :
  reachable w -> connected_phase (phase w) = true ->
  step (SignalAbort r) w = Some w' ->
  w' = set_signal (SigAborted r) w.
Proof.
  intros Hw Hp Hs.
  destruct (listener_inv_reachable w Hw) as [Hl _].
  assert (abortListener w = false) as Hf.
  { destruct (abortListener w); [| reflexivity].
    destruct (Hl eq_refl) as [_ Hc]. rewrite Hc in Hp. discriminate. }
  step_inv Hs. unfold signal_abort. unfold_monad. simpl.
  destruct w as [wrid conn cl sent early sig lis ph crr csr ops tim pl lg].
  simpl in *. subst. reflexivity.
Qed.

(** An open instance built with a signal. *)
Lemma abort_after_connect_example :
  exists w,
    run [CreateOk 7 None None; CallPull] (construct SigIdle) = Some w /\
    step (SignalAbort (VHost 1)) w = Some (set_signal (SigAborted (VHost 1)) w).
Proof.
  eexists. split; [vm_compute; reflexivity |].
  match goal with
  | |- step _ ?w = _ =>
      assert (reachable w) as Hw
        by (exists SigIdle, [CreateOk 7 None None; CallPull];
            vm_compute; reflexivity);
      destruct (step (SignalAbort (VHost 1)) w) as [w1 |] eqn:Hs;
        [| vm_compute in Hs; discriminate];
      rewrite (abort_after_connect_is_inert w w1 (VHost 1) Hw eq_refl Hs)
  end.
  reflexivity.
Defined.

(** X10. While connecting, a firing signal closes the cancel handle and
    settles nothing; when the connect attempt is then interrupted, both
    [connection] and [closed] are rejected with the signal's reason,
    whatever the interruption error was, and the cancel handle is not
    closed a second time. *)
Theorem abort_while_connecting (w : World) (r err : Value) :
  reachable w -> phase w = Creating -> signal w = SigIdle ->
  exists w1 w2,
    step (SignalAbort r) w = Some w1 /\
    log w1 = CoreCloseCancelRid :: log w /\
    _connection w1 = None /\ _closed w1 = None /\
    step (CreateErr true err) w1 = Some w2 /\
    both_rejected r w2 /\
    log w2
    = Settle Closed (Rejected r) true :: Settle Connection (Rejected r) true
        :: log w1.
Proof.
  intros Hw Hp Hsig.
  destruct (listener_inv_reachable w Hw) as [_ Hl].
  specialize (Hl Hp Hsig).
  destruct (creating_pending w Hw Hp) as [Hc Hcl].
  destruct w as [wrid conn cl sent early sig lis ph crr csr ops tim pl lg].
  simpl in *. subst.
  eexists. eexists. split; [reflexivity |].
  unfold signal_abort. unfold_monad. cbn.
  split; [reflexivity |]. split; [reflexivity |]. split; [reflexivity |].
  split; [reflexivity |].
  unfold both_rejected, create_rejected, reject_both, reject. unfold_monad. cbn.
  split; [split; reflexivity | reflexivity].
Qed.

Lemma abort_while_connecting_example :
  reachable connecting_world /\
  exists w1 w2,
    step (SignalAbort (VHost 1)) connecting_world = Some w1 /\
    step (CreateErr true (VHost 2)) w1 = Some w2 /\
    both_rejected (VHost 1) w2.
Proof.
  assert (reachable connecting_world) as Hw
    by (exists SigIdle, []; vm_compute; reflexivity).
  split; [exact Hw |].
  destruct (abort_while_connecting connecting_world (VHost 1) (VHost 2)
              Hw eq_refl eq_refl)
    as (w1 & w2 & Hs1 & _ & _ & _ & Hs2 & Hb & _).
  exists w1, w2. auto.
Defined.

(** ** Failures while connecting *)

(** X11. When the connect attempt fails without having been interrupted,
    the cancel handle is released with [core.tryClose] and both
    [connection] and [closed] are rejected with the failure; this is so
    whether or not [close] had been called in the meantime, and no close
    frame is sent. *)
Theorem connect_failure_rejects_both (w : World) (err : Value) :
  reachable w -> phase w = Creating ->
  exists w',
    step (CreateErr false err) w = Some w' /\
    both_rejected err w' /\
    phase w' = Finished /\
    log w'
    = Settle Closed (Rejected err) true :: Settle Connection (Rejected err) true
        :: CoreTryCloseCancelRid :: log w.
Proof.
  intros Hw Hp.
  destruct (creating_pending w Hw Hp) as [Hc Hcl].
  destruct w as [wrid conn cl sent early sig lis ph crr csr ops tim pl lg].
  simpl in *. subst.
  eexists. split; [reflexivity |].
  unfold both_rejected, create_rejected, reject_both, reject. unfold_monad. cbn.
  repeat split.
Qed.

Lemma connect_failure_after_early_close :
  reachable closing_early_world /\
  exists w',
    step (CreateErr false (VHost 3)) closing_early_world = Some w' /\
    both_rejected (VHost 3) w'.
Proof.
  split; [exact closing_early_world_reachable |].
  destruct (connect_failure_rejects_both closing_early_world (VHost 3)
              closing_early_world_reachable eq_refl) as (w' & Hs & Hb & _).
  exists w'. auto.
Defined.

(** X12. When [op_ws_next_event] fails inside the drain loop of the
    early-close branch, nothing is left that would settle the instance:
    whatever happens afterwards, [connection] and [closed] both stay
    pending. *)
Theorem drain_failure_settles_nothing (w : World) (rid : Z) :
  reachable w -> phase w = Draining rid ->
  exists w1,
    step DrainFail w = Some w1 /\
    forall tr w2,
      run tr w1 = Some w2 -> _connection w2 = None /\ _closed w2 = None.
Proof.
  intros Hw Hp.
  destruct (base_inv_reachable w Hw) as (Hc & Hi & _ & _).
  unfold connect_inv in Hc. unfold idle_inv in Hi. rewrite Hp in Hc, Hi.
  specialize (Hi eq_refl). destruct Hi as (Hpl & Hops & Htim).
  assert (_connection w = None /\ _closed w = None) as [Hconn Hcl].
  { destruct (_connection w) as [[v | e] |].
    - discriminate.
    - destruct Hc; discriminate.
    - destruct Hc as [Hcl _]. split; [reflexivity | exact Hcl]. }
  exists (set_phase Finished w).
  split; [unfold step; rewrite Hp; reflexivity |].
  intros tr w2 Hr.
  assert (abandoned (set_phase Finished w)) as Ha.
  { destruct w; simpl in *. unfold abandoned; simpl. repeat split; assumption. }
  destruct (abandoned_run tr _ w2 Hr Ha) as (_ & H1 & H2 & _).
  split; assumption.
Qed.

Lemma drain_failure_example :
  reachable draining_world /\
  exists w1 w2,
    step DrainFail draining_world = Some w1 /\
    run [CallClose default_close_info; CallClose default_close_info] w1 = Some w2 /\
    _connection w2 = None /\ _closed w2 = None.
Proof.
  assert (reachable draining_world) as Hw.
  { exists SigAbsent,
      [CallClose default_close_info; CreateOk 7 None None; EarlyCloseOk].
    vm_compute. reflexivity. }
  split; [exact Hw |].
  destruct (drain_failure_settles_nothing draining_world 7 Hw eq_refl)
    as (w1 & Hs & Hall).
  exists w1.
  destruct (run [CallClose default_close_info; CallClose default_close_info] w1)
    as [w2 |] eqn:Hr.
  - exists w2. destruct (Hall _ w2 Hr) as [H1 H2]. auto.
  - exfalso. vm_compute in Hs. injection Hs as <-. vm_compute in Hr.
    discriminate.
Defined.

(** ** The checks at the head of the constructor *)

Lemma remove_dups_length_le (l : list USVString) :
  (length (remove_dups l) <= length l)%nat.
Proof.
  induction l as [| x l IH]; simpl; [lia |].
  destruct (decide_rel elem_of x l); simpl; lia.
Qed.

Lemma set_size_full (l : list USVString) :
  (length l =? SetPrototypeGetSize l)%nat = true <-> NoDup l.
Proof.
  unfold SetPrototypeGetSize. rewrite Nat.eqb_eq.
  induction l as [| x l IH]; simpl.
  - split; [intros _; constructor | reflexivity].
  - pose proof (remove_dups_length_le l) as Hle.
    destruct (decide_rel elem_of x l) as [Hin | Hnin]; simpl.
    + split; [lia |]. intros Hnd. apply NoDup_cons in Hnd. tauto.
    + rewrite NoDup_cons. split.
      * intros H. split; [exact Hnin |]. apply IH. lia.
      * intros [_ H]. apply IH in H. lia.
Qed.

(** X13. The constructor gets past its checks exactly when the scheme of
    the URL is [ws:] or [wss:], the URL has no fragment (not even an empty
    one, that is a trailing "#"), and no two entries of the protocol list
    are equal once lower-cased; two such entries at different positions
    make it throw, and a throwing constructor builds no instance. *)
Theorem constructor_checks_accept (lower : USVString -> USVString)
  (wsURL : URL.t) (protocols : list USVString) (sig : SignalState) :
  (constructor_checks lower wsURL protocols = Normal <->
   (URL.protocol wsURL = "ws:"%string \/ URL.protocol wsURL = "wss:"%string) /\
   URL.hash wsURL = ""%string /\
   StringPrototypeEndsWith (URL.href wsURL) "#" = false /\
   NoDup (map lower protocols)) /\
  (forall (i j : nat) (a b : USVString),
      i <> j -> protocols !! i = Some a -> protocols !! j = Some b ->
      lower a = lower b ->
      exists e, new_WebSocketStream lower wsURL protocols sig = (Throw e, None)) /\
  (constructor_checks lower wsURL protocols = Normal ->
   new_WebSocketStream lower wsURL protocols sig = (Normal, Some (construct sig))).
Proof.
  assert (constructor_checks lower wsURL protocols = Normal <->
          (URL.protocol wsURL = "ws:"%string \/ URL.protocol wsURL = "wss:"%string) /\
          URL.hash wsURL = ""%string /\
          StringPrototypeEndsWith (URL.href wsURL) "#" = false /\
          NoDup (map lower protocols)) as Hiff.
  { unfold constructor_checks.
    destruct (String.eqb (URL.protocol wsURL) "ws:") eqn:Hws;
      destruct (String.eqb (URL.protocol wsURL) "wss:") eqn:Hwss;
      destruct (String.eqb (URL.hash wsURL) "") eqn:Hh;
      destruct (StringPrototypeEndsWith (URL.href wsURL) "#") eqn:He;
      destruct (length protocols =? SetPrototypeGetSize (map lower protocols))%nat
        eqn:Hp;
      simpl;
      rewrite ?String.eqb_eq, ?String.eqb_neq in *;
      (split;
       [ try discriminate; intros _;
         repeat split; auto;
         apply set_size_full; rewrite length_map in *; exact Hp
       | intros (Hs & Hhash & Hend & Hnd);
         try reflexivity; try congruence; try tauto;
         apply set_size_full in Hnd; rewrite length_map in Hnd; congruence ]). }
  split; [exact Hiff |]. split.
  - intros i j a b Hij Ha Hb Hab. unfold new_WebSocketStream.
    destruct (constructor_checks lower wsURL protocols) eqn:Hc; [| eauto].
    exfalso. destruct (proj1 Hiff eq_refl) as (_ & _ & _ & Hnd).
    apply Hij. apply (proj1 (NoDup_alt (map lower protocols)) Hnd i j (lower a)).
    + change (map lower protocols) with (lower <$> protocols).
      rewrite list_lookup_fmap, Ha. reflexivity.
    + change (map lower protocols) with (lower <$> protocols).
      rewrite list_lookup_fmap, Hb, Hab. reflexivity.
  - intros Hc. unfold new_WebSocketStream. rewrite Hc. reflexivity.
Qed.

Example constructor_rejects_chat_twice :
  new_WebSocketStream ascii_lower
    {| URL.protocol := "wss:"; URL.hash := ""; URL.href := "wss://x.example/" |}
    [[67; 104; 97; 116]%N; [99; 104; 97; 116]%N] SigAbsent
  = (Throw protocol_error, None).
Proof. vm_compute. reflexivity. Qed.

Example constructor_rejects_bare_hash :
  new_WebSocketStream ascii_lower
    {| URL.protocol := "ws:"; URL.hash := ""; URL.href := "ws://x.example/#" |}
    [] SigAbsent
  = (Throw fragment_error, None).
Proof. vm_compute. reflexivity. Qed.

(** ** Terminal events in the pump *)

Lemma terminal_event_step (w : World) (j : nat) (callers : list Frame)
  (kind : Z) (value : Value) (now : Z) :
  pulls w !! j = Some (AwaitEvent :: callers) ->
  _closed w = None ->
  kind = 5 \/ kind = 6 \/ kind < 0 \/ kind = 4 \/ 6 < kind ->
  exists w1,
    step (NextEvent j kind value now) w = Some w1 /\
    pulls w1 !! j = Some callers /\
    _closed w1 = Some (terminal_settlement kind value) /\
    log w1 = terminal_effects kind value (_rid w) ++ log w /\
    phase w1 = phase w /\ _connection w1 = _connection w /\
    closedReactionRan w1 = closedReactionRan w /\ _rid w1 = _rid w.
Proof.
  intros Hj Hcl Hk. unfold step. rewrite Hj.
  eexists. split; [reflexivity |].
  destruct w as [wrid conn cl sent early sig lis ph crr csr ops tim pl lg].
  simpl in *. subst cl.
  unfold on_event, after_switch, set_chain, resolve, reject,
    terminal_settlement, terminal_effects.
  unfold_monad.
  destruct kind as [| p | p]; [lia | |];
    [ do 3 (try (destruct p as [p | p |])); try lia
    | ];
    cbn; rewrite andb_false_r; cbn;
    (split; [eapply lookup_set_frames; exact Hj | repeat split]).
Qed.

(** X14. A pull that receives an Error event (kind 5), the Closed event
    (kind 6) or an event of any kind outside 0..6, kind 4 and negative
    kinds included, while [closed] is pending settles it: rejected with
    [new Error(value)] for kind 5, resolved with [undefined] for kind 6,
    resolved with [{code: kind, reason: value}] otherwise.  It releases the
    handle, errors the controller for kind 5 only, enqueues nothing, and
    returns. *)
Theorem terminal_events_settle_closed (w : World) (j : nat)
  (callers : list Frame) (kind : Z) (value : Value) (now : Z) :
  pulls w !! j = Some (AwaitEvent :: callers) ->
  _closed w = None ->
  kind = 5 \/ kind = 6 \/ kind < 0 \/ kind = 4 \/ 6 < kind ->
  exists w1,
    step (NextEvent j kind value now) w = Some w1 /\
    pulls w1 !! j = Some callers /\
    _closed w1 = Some (terminal_settlement kind value) /\
    log w1 = terminal_effects kind value (_rid w) ++ log w.
Proof.
  intros Hj Hcl Hk.
  destruct (terminal_event_step w j callers kind value now Hj Hcl Hk)
    as (w1 & Hs & Hp & Hc & Hl & _).
  exists w1. auto.
Qed.

Lemma terminal_events_example :
  pulls open_world !! 0%nat = Some [AwaitEvent] /\
  exists w1,
    step (NextEvent 0 4 (VString [98%N]) 0) open_world = Some w1 /\
    _closed w1 = Some (Resolved (VCloseEvent 4 (VString [98%N]))) /\
    pulls w1 !! 0%nat = Some [].
Proof.
  split; [reflexivity |].
  destruct (terminal_events_settle_closed open_world 0 [] 4 (VString [98%N]) 0
              eq_refl eq_refl) as (w1 & Hs & Hp & Hc & _).
  { right. right. right. left. reflexivity. }
  exists w1. auto.
Defined.

(** X15. A close coming from the peer tears both streams down without a
    close frame going out: the pull resolves [closed] and releases the
    handle, the reaction installed by [start] closes the controller and
    the writable stream, and the [close] hook which that runs calls
    [close] to no effect. *)
Theorem peer_close_tears_down (w : World) (j : nat) (callers : list Frame)
  (kind : Z) (value : Value) (now : Z) (r : option WebSocketCloseInfo) :
  reachable w ->
  pulls w !! j = Some (AwaitEvent :: callers) ->
  _closed w = None ->
  kind = 6 \/ kind < 0 \/ kind = 4 \/ 6 < kind ->
  exists w',
    run [NextEvent j kind value now; ClosedReaction; CallSinkClose r] w
    = Some w' /\
    _closed w' = Some (terminal_settlement kind value) /\
    log w'
    = WritableStreamClose :: ControllerClose
        :: CoreTryClose (_rid w)
        :: Settle Closed (terminal_settlement kind value) true :: log w.
Proof.
  intros Hw Hj Hcl Hk.
  assert (kind = 5 \/ kind = 6 \/ kind < 0 \/ kind = 4 \/ 6 < kind) as Hk'
    by tauto.
  assert ((kind =? 5) = false) as Hk5 by lia.
  destruct (terminal_event_step w j callers kind value now Hj Hcl Hk')
    as (w1 & Hs1 & _ & Hcl1 & Hlog1 & Hph1 & Hconn1 & Hran1 & _).
  destruct (base_inv_reachable w Hw) as (Hc & Hi & _ & _).
  assert (phase w = Open) as Hopen.
  { unfold idle_inv in Hi. destruct (phase w); try reflexivity;
      destruct (Hi eq_refl) as [Hpl _]; rewrite Hpl in Hj;
      rewrite lookup_nil in Hj; discriminate. }
  assert (closedReactionRan w = false) as Hran.
  { destruct (reaction_inv_reachable w Hw) as (_ & _ & Hr).
    destruct (closedReactionRan w); [| reflexivity].
    specialize (Hr eq_refl). rewrite Hcl in Hr. discriminate. }
  assert (_connection w <> None) as Hconn.
  { unfold connect_inv in Hc. intros Hn. rewrite Hn, Hopen in Hc.
    destruct Hc as (_ & _ & _ & Hf). discriminate. }
  assert (is_fulfilled (_closed w1) = true) as Hful.
  { rewrite Hcl1. unfold terminal_settlement. rewrite Hk5.
    destruct (kind =? 6); reflexivity. }
  set (w2 := exec closed_reaction w1).
  assert (step ClosedReaction w1 = Some w2) as Hs2.
  { unfold step. rewrite Hph1, Hopen, Hful, Hran1, Hran. reflexivity. }
  assert (_closed w2 = _closed w1 /\ _connection w2 = _connection w1 /\
          phase w2 = phase w1 /\
          log w2 = WritableStreamClose :: ControllerClose :: log w1)
    as (Hcl2 & Hconn2 & Hph2 & Hlog2).
  { subst w2. destruct w1; unfold closed_reaction; unfold_monad; cbn.
    repeat split. }
  exists w2. split.
  - cbn [run]. rewrite Hs1, Hs2. unfold step. rewrite Hph2, Hph1, Hopen.
    cbn [is_open]. destruct (sink_close_exec r w2) as [ci ->].
    rewrite close_noop_when_settled; [reflexivity | |].
    + rewrite Hconn2, Hconn1. exact Hconn.
    + rewrite Hcl2, Hcl1. discriminate.
  - split; [rewrite Hcl2; exact Hcl1 |].
    rewrite Hlog2, Hlog1. unfold terminal_effects. rewrite Hk5. reflexivity.
Qed.

Lemma peer_close_example :
  reachable open_world /\
  exists w',
    run [NextEvent 0 4001 (VString [98%N; 121%N; 101%N]) 0; ClosedReaction;
         CallSinkClose None] open_world = Some w' /\
    _closed w'
    = Some (Resolved (VCloseEvent 4001 (VString [98%N; 121%N; 101%N]))).
Proof.
  split; [exact open_world_reachable |].
  destruct (peer_close_tears_down open_world 0 [] 4001
              (VString [98%N; 121%N; 101%N]) 0 None open_world_reachable
              eq_refl eq_refl) as (w' & Hr & Hc & _).
  { right. right. right. lia. }
  exists w'. split; [exact Hr | exact Hc].
Defined.
